(** * slackcnr: Slack channel name resolver

    A shallow embedding of [storage.go] (the in-memory cache store) and
    [resolver.go] (Lookup / prepare / Refresh), with the properties of the
    cache-refresh and lookup coordination proved over it.

    Conventions
    - Go maps are [gmap]s keyed by [string].
    - [time.Time] and [time.Duration] are integers ([Z]) counting
      nanoseconds; the zero [time.Time] is [0]; a [time.Duration] is a
      64-bit signed integer and [Time.Sub] saturates as Go's does.
    - A Go [error] value is [option error] ([None] is [nil]). *)

From stdpp Require Import gmap strings list.

Open Scope Z_scope.

(** ** Channel records (slack.Channel)

    The resolver depends on the identifier and the name only; the archived
    flag stands for the rest of the payload, which the code never reads. *)

Record Channel : Type := mkChannel {
  ID : string;
  Name : string;
  IsArchived : bool
}.

(** ** Errors

    [ErrNotFound] is the sentinel of [storage.go].  [ErrRateLimited] is
    [*slack.RateLimitedError]: its [RetryAfter] field and what its
    [Retryable()] method reports.  [ErrCanceled] and [ErrDeadlineExceeded]
    are the two values a context's [Err()] may return.  [ErrWrap] is an error
    wrapping another one ([fmt.Errorf] with [%w]), through which [errors.Is]
    and [errors.As] look. *)

Inductive error : Type :=
| ErrNotFound
| ErrRateLimited (RetryAfter : Z) (retryable : bool)
| ErrCanceled
| ErrDeadlineExceeded
| ErrOpaque (msg : string)
| ErrWrap (msg : string) (inner : error).

(** [errors.Is(err, ErrNotFound)] *)
Fixpoint errors_Is_ErrNotFound (e : error) : bool :=
  match e with
  | ErrNotFound => true
  | ErrWrap _ inner => errors_Is_ErrNotFound inner
  | _ => false
  end.

(** The [*slack.RateLimitedError] that [errors.As] extracts. *)
Record RateLimitedError : Type := mkRLE {
  rleRetryAfter : Z;
  Retryable : bool
}.

(** [errors.As(err, &rle)] *)
Fixpoint errors_As_RateLimited (e : error) : option RateLimitedError :=
  match e with
  | ErrRateLimited d r => Some (mkRLE d r)
  | ErrWrap _ inner => errors_As_RateLimited inner
  | _ => None
  end.

(** ** Time *)

Module Time.
Definition maxDuration : Z := 2 ^ 63 - 1.
Definition minDuration : Z := - 2 ^ 63.

Definition is_duration (d : Z) : Prop := minDuration ≤ d ≤ maxDuration.

(** [t.IsZero()] *)
Definition IsZero (t : Z) : bool := bool_decide (t = 0).

(** [t.Sub(u)]: the difference, saturated to the range of a Duration. *)
Definition Sub (t u : Z) : Z :=
  if bool_decide (maxDuration < t - u) then maxDuration
  else if bool_decide (t - u < minDuration) then minDuration
  else t - u.

(** [time.Since(t)], the clock reading [now]. *)
Definition Since (now t : Z) : Z := Sub now t.

Definition Millisecond : Z := 1000000.
Definition Second : Z := 1000000000.
Definition Hour : Z := 3600 * Second.
End Time.

(** ** Contexts

    A [context.Context] is observed through [Done()] and [Err()] only.  It is
    cancelled from some instant on ([doneAt], [None] for a context that is
    never cancelled) and then reports [doneErr]. *)

Record Context : Type := mkContext {
  doneAt : option Z;
  doneErr : error
}.

Definition Background : Context := mkContext None ErrCanceled.

(** Is the channel [ctx.Done()] closed at instant [now]? *)
Definition ctx_Done (ctx : Context) (now : Z) : bool :=
  match doneAt ctx with
  | Some t => bool_decide (t ≤ now)
  | None => false
  end.

(** [ctx.Err()] *)
Definition ctx_Err (ctx : Context) (now : Z) : option error :=
  if ctx_Done ctx now then Some (doneErr ctx) else None.

(** ** The Storage interface (storage.go)

    A store has a state of type [S]; every method gets the context and the
    current clock reading, and returns its results with the next state. *)

Class Storage (S : Type) : Type := {
  SetChannels : Context → Z → S → list Channel → option error * S;
  GetByChannelName : Context → Z → S → string → (option Channel * option error) * S;
  NeedRefresh : Context → Z → S → bool * S
}.

(** ** InMemoryStorage (storage.go) *)

Module InMemoryStorage.

Record t : Type := mk {
  channels : gmap string Channel;
  namesById : gmap string string;
  lastSetTime : Z;
  expredDuration : Z
}.

Definition NewInMemoryStorage (expredDuration : Z) : t :=
  {| channels := ∅; namesById := ∅; lastSetTime := 0;
     expredDuration := expredDuration |}.

(** One iteration of the [range channels] loop of [SetChannels]. *)
Definition set_one (s : t) (channel : Channel) : t :=
  {| channels := <[ID channel := channel]> (channels s);
     namesById := <[Name channel := ID channel]> (namesById s);
     lastSetTime := lastSetTime s;
     expredDuration := expredDuration s |}.

(** [SetChannels]; [now] is what [time.Now()] returns.  It never fails. *)
Definition SetChannels (now : Z) (s : t) (chs : list Channel) : t :=
  let s' := foldl set_one s chs in
  {| channels := channels s';
     namesById := namesById s';
     lastSetTime := now;
     expredDuration := expredDuration s' |}.

(** The three ways out of [GetByChannelName]. *)
Inductive get_branch : Type :=
| NameMissing
| RecordMissing
| Found (channel : Channel).

Definition GetByChannelName_branch (s : t) (channelName : string) : get_branch :=
  match namesById s !! channelName with
  | None => NameMissing
  | Some id =>
      match channels s !! id with
      | None => RecordMissing
      | Some channel => Found channel
      end
  end.

Definition GetByChannelName (s : t) (channelName : string)
  : option Channel * option error :=
  match GetByChannelName_branch s channelName with
  | NameMissing => (None, Some ErrNotFound)
  | RecordMissing => (None, Some ErrNotFound)
  | Found channel => (Some channel, None)
  end.

Definition NeedRefresh (now : Z) (s : t) : bool :=
  if Time.IsZero (lastSetTime s) then true
  else if bool_decide (expredDuration s = 0) then false
  else bool_decide (Time.Since now (lastSetTime s) > expredDuration s).

(** The store after a sequence of [SetChannels] calls, each with the clock
    reading at which it ran. *)
Definition after_batches (s : t) (calls : list (Z * list Channel)) : t :=
  foldl (λ s call, SetChannels call.1 s call.2) s calls.

(** The invariant of the two indexes. *)
Definition index_inv (s : t) : Prop :=
  ∀ name id, namesById s !! name = Some id → is_Some (channels s !! id).

End InMemoryStorage.

#[export] Instance InMemoryStorage_Storage : Storage InMemoryStorage.t := {|
  SetChannels _ now s chs := (None, InMemoryStorage.SetChannels now s chs);
  GetByChannelName _ _ s name := (InMemoryStorage.GetByChannelName s name, s);
  NeedRefresh _ now s := (InMemoryStorage.NeedRefresh now s, s)
|}.

(** ** The SlackClient interface (resolver.go)

    Both listing calls take a cursor, a page-size limit and the
    exclude-archived flag (the fields of the parameter structs that
    [Refresh] fills in) and answer with a page, a continuation cursor and
    an error.  [took] is the time the remote call needed on the clock of
    the model; it is chosen by the client, not by the resolver. *)

Inductive Endpoint : Type :=
| ForUser      (* GetConversationsForUserContext *)
| Directory.   (* GetConversationsContext *)

Record Params : Type := mkParams {
  Cursor : string;
  Limit : Z;
  ExcludeArchived : bool
}.

Record Reply : Type := mkReply {
  rChannels : list Channel;
  nextCursor : string;
  rErr : option error;
  took : Z
}.

Class SlackClient (C : Type) : Type := {
  GetConversationsForUserContext : Context → Z → C → Params → Reply * C;
  GetConversationsContext : Context → Z → C → Params → Reply * C
}.

(** ** Resolver options

    [cacheStorage] is a reference to a mutable store: it lives in the world
    ([cacheStorage] of [World]) and not in this record. *)

Record resolverOptions : Type := mkOptions {
  searchpublicChannels : bool;
  batchSize : Z;
  excludeArchived : bool;
  refreshOnCacheMiss : bool
}.

Definition defaultOptions : resolverOptions :=
  {| searchpublicChannels := false; batchSize := 1000;
     excludeArchived := false; refreshOnCacheMiss := false |}.

(** The store [defaultOptions] installs. *)
Definition defaultCacheStorage : InMemoryStorage.t :=
  InMemoryStorage.NewInMemoryStorage (24 * Time.Hour).

Definition WithSearchPublicChannels (o : resolverOptions) : resolverOptions :=
  {| searchpublicChannels := true; batchSize := batchSize o;
     excludeArchived := excludeArchived o;
     refreshOnCacheMiss := refreshOnCacheMiss o |}.

Definition WithBatchSize (size : Z) (o : resolverOptions) : resolverOptions :=
  {| searchpublicChannels := searchpublicChannels o; batchSize := size;
     excludeArchived := excludeArchived o;
     refreshOnCacheMiss := refreshOnCacheMiss o |}.

Definition WithExcludeArchived (o : resolverOptions) : resolverOptions :=
  {| searchpublicChannels := searchpublicChannels o; batchSize := batchSize o;
     excludeArchived := true;
     refreshOnCacheMiss := refreshOnCacheMiss o |}.

Definition WithRefreshOnCacheMiss (o : resolverOptions) : resolverOptions :=
  {| searchpublicChannels := searchpublicChannels o; batchSize := batchSize o;
     excludeArchived := excludeArchived o;
     refreshOnCacheMiss := true |}.

(** [New]: the options of the resolver it builds. *)
Definition New (optFns : list (resolverOptions → resolverOptions)) : resolverOptions :=
  foldl (λ opts optFn, optFn opts) defaultOptions optFns.

(** ** Observable events

    What a run of the resolver does to its collaborators, in order. *)

Inductive Event : Type :=
| EvLock                                   (* r.mu.Lock() *)
| EvUnlock                                 (* the deferred r.mu.Unlock() *)
| EvCall (ep : Endpoint) (start : Z) (params : Params) (reply : Reply)
| EvSetChannels (channels : list Channel) (err : option error)
| EvGetByChannelName (channelName : string) (result : option Channel * option error)
| EvNeedRefresh (result : bool).

(** ** The select statement of Refresh

    [select { case <-ctx.Done(): ...; case <-time.After(sleepTime): ; default: }]

    A select with a [default] clause never blocks.  Among the cases that can
    proceed one is chosen by the runtime ([pick_timer] is its choice when
    both can); when none can, [default] is taken at once. *)

Inductive SelectCase : Type :=
| CaseDone
| CaseTimer
| CaseDefault.

#[export] Instance SelectCase_eq_dec : EqDecision SelectCase.
Proof. solve_decision. Defined.

Definition select (done_ready timer_ready pick_timer : bool) : SelectCase :=
  match done_ready, timer_ready with
  | true, true => if pick_timer then CaseTimer else CaseDone
  | true, false => CaseDone
  | false, true => CaseTimer
  | false, false => CaseDefault
  end.

(** How a loop of [Refresh] goes on after one iteration, and how it ends. *)

Inductive Flow : Type :=
| Continue (cursor : string) (sleepTime : Z)
| Break
| Return (err : option error).

Inductive LoopExit : Type :=
| Broke
| Returned (err : option error).

(** ** The world the resolver runs in, and its monad *)

Section Resolver.

Context {C S : Type} `{!SlackClient C} `{!Storage S}.

(** [clock] is the current instant; [client] and [cacheStorage] are the
    states of the two collaborators; [log] is the history of events, oldest
    first; [sched] is the runtime's choice at the n-th select when several
    cases can proceed, and [polls] counts the selects run so far. *)
Record World : Type := mkWorld {
  clock : Z;
  client : C;
  cacheStorage : S;
  log : list Event;
  sched : nat → bool;
  polls : nat
}.

(** A computation either runs forever ([None]: the model ran out of fuel)
    or ends with a value in a new world. *)
Definition M (A : Type) : Type := World → option (A * World).

Definition ret {A : Type} (a : A) : M A := λ w, Some (a, w).

Definition bind {A B : Type} (m : M A) (k : A → M B) : M B :=
  λ w, match m w with
       | Some (a, w') => k a w'
       | None => None
       end.

Definition diverge {A : Type} : M A := λ _, None.

Local Notation "'let!' x ':=' m 'in' k" := (bind m (λ x, k))
  (at level 10, x name, m at level 100, k at level 200).

Definition emit (ev : Event) : M unit :=
  λ w, Some (tt, {| clock := clock w; client := client w;
                    cacheStorage := cacheStorage w;
                    log := log w ++ [ev];
                    sched := sched w; polls := polls w |}).

Definition now : M Z := λ w, Some (clock w, w).

(** The select at the head of each loop iteration.  [time.After(sleepTime)]
    is created and polled at the same instant, so its channel can only be
    ready when [sleepTime] is not positive.  No time passes. *)
Definition poll (ctx : Context) (sleepTime : Z) : M SelectCase :=
  λ w, Some (select (ctx_Done ctx (clock w)) (bool_decide (sleepTime ≤ 0))
                    (sched w (polls w)),
             {| clock := clock w; client := client w;
                cacheStorage := cacheStorage w; log := log w;
                sched := sched w; polls := Datatypes.S (polls w) |}).

(** A remote listing call: the client answers, the call takes [took]. *)
Definition call (ep : Endpoint) (ctx : Context) (params : Params) : M Reply :=
  λ w, let '(reply, c') :=
         match ep with
         | ForUser => GetConversationsForUserContext ctx (clock w) (client w) params
         | Directory => GetConversationsContext ctx (clock w) (client w) params
         end in
       Some (reply, {| clock := clock w + took reply; client := c';
                       cacheStorage := cacheStorage w;
                       log := log w ++ [EvCall ep (clock w) params reply];
                       sched := sched w; polls := polls w |}).

Definition setChannels (ctx : Context) (chs : list Channel) : M (option error) :=
  λ w, let '(err, s') := SetChannels ctx (clock w) (cacheStorage w) chs in
       Some (err, {| clock := clock w; client := client w;
                     cacheStorage := s';
                     log := log w ++ [EvSetChannels chs err];
                     sched := sched w; polls := polls w |}).

Definition getByChannelName (ctx : Context) (channelName : string)
  : M (option Channel * option error) :=
  λ w, let '(res, s') := GetByChannelName ctx (clock w) (cacheStorage w) channelName in
       Some (res, {| clock := clock w; client := client w;
                     cacheStorage := s';
                     log := log w ++ [EvGetByChannelName channelName res];
                     sched := sched w; polls := polls w |}).

Definition needRefresh (ctx : Context) : M bool :=
  λ w, let '(b, s') := NeedRefresh ctx (clock w) (cacheStorage w) in
       Some (b, {| clock := clock w; client := client w;
                   cacheStorage := s';
                   log := log w ++ [EvNeedRefresh b];
                   sched := sched w; polls := polls w |}).

(** *** Refresh (resolver.go) *)

Variable opts : resolverOptions.

Definition page_params (cursor : string) : Params :=
  {| Cursor := cursor; Limit := batchSize opts;
     ExcludeArchived := excludeArchived opts |}.

(** The body of either [for] loop of [Refresh], on endpoint [ep]. *)
Definition iteration (ep : Endpoint) (ctx : Context)
    (cursor : string) (sleepTime : Z) : M Flow :=
  let! chosen := poll ctx sleepTime in
  match chosen with
  | CaseDone => let! t := now in ret (Return (ctx_Err ctx t))
  | CaseTimer | CaseDefault =>
      let! reply := call ep ctx (page_params cursor) in
      match rErr reply with
      | Some err =>
          match errors_As_RateLimited err with
          | None => ret (Return (Some err))
          | Some rle =>
              if negb (Retryable rle) then ret (Return (Some err))
              else ret (Continue cursor (rleRetryAfter rle))
          end
      | None =>
          let! serr := setChannels ctx (rChannels reply) in
          match serr with
          | Some err => ret (Return (Some err))
          | None =>
              if bool_decide (nextCursor reply = "") then ret Break
              else ret (Continue (nextCursor reply) sleepTime)
          end
      end
  end.

(** The [for] loop; it has no bound of its own, [fuel] bounds the model. *)
Fixpoint loop (fuel : nat) (ep : Endpoint) (ctx : Context)
    (cursor : string) (sleepTime : Z) : M LoopExit :=
  match fuel with
  | O => diverge
  | Datatypes.S fuel' =>
      let! flow := iteration ep ctx cursor sleepTime in
      match flow with
      | Continue cursor' sleepTime' => loop fuel' ep ctx cursor' sleepTime'
      | Break => ret Broke
      | Return err => ret (Returned err)
      end
  end.

(** What runs between [r.mu.Lock()] and the deferred unlock. *)
Definition refresh_body (fuel : nat) (ctx : Context) : M (option error) :=
  let! first := loop fuel ForUser ctx "" 0 in
  match first with
  | Returned err => ret err
  | Broke =>
      if negb (searchpublicChannels opts) then ret None
      else
        let! second := loop fuel Directory ctx "" 0 in
        match second with
        | Returned err => ret err
        | Broke => ret None
        end
  end.

Definition Refresh (fuel : nat) (ctx : Context) : M (option error) :=
  let! _ := emit EvLock in
  let! err := refresh_body fuel ctx in
  let! _ := emit EvUnlock in
  ret err.

(** *** prepare and Lookup (resolver.go) *)

Definition prepare (fuel : nat) (ctx : Context) : M (option error) :=
  let! need := needRefresh ctx in
  if negb need then ret None else Refresh fuel ctx.

(** The [if err != nil] block of [Lookup] and its final [return]: what
    [Lookup] does with the outcome [res] of its first cache read. *)
Definition Lookup_miss (fuel : nat) (ctx : Context) (channelName : string)
    (res : option Channel * option error)
  : M (option Channel * option error) :=
  match res.2 with
  | Some err =>
      if negb (refreshOnCacheMiss opts) then ret (None, Some err)
      else if negb (errors_Is_ErrNotFound err) then ret (None, Some err)
      else
        let! rerr := Refresh fuel ctx in
        match rerr with
        | Some err' => ret (None, Some err')
        | None => getByChannelName ctx channelName
        end
  | None => ret res
  end.

Definition Lookup (fuel : nat) (ctx : Context) (channelName : string)
  : M (option Channel * option error) :=
  let! perr := prepare fuel ctx in
  match perr with
  | Some err => ret (None, Some err)
  | None =>
      let! res := getByChannelName ctx channelName in
      Lookup_miss fuel ctx channelName res
  end.

End Resolver.

Arguments World : clear implicits.
Arguments M : clear implicits.

(** ** A scripted remote

    A client that answers the calls it receives, whatever their endpoint and
    parameters, with the replies of a fixed list in order, and with a plain
    failure once the list is used up.  It is the mock client of the tests:
    any run of the resolver against any remote is a run against the script of
    the replies that remote gave. *)

Definition script_end : Reply :=
  {| rChannels := []; nextCursor := ""; rErr := Some (ErrOpaque "end of script");
     took := 0 |}.

Definition script_next (script : list Reply) : Reply * list Reply :=
  match script with
  | [] => (script_end, [])
  | reply :: rest => (reply, rest)
  end.

#[export] Instance Script_SlackClient : SlackClient (list Reply) := {|
  GetConversationsForUserContext _ _ script _ := script_next script;
  GetConversationsContext _ _ script _ := script_next script
|}.

(** A successful page. *)
Definition page (chs : list Channel) (next : string) (took : Z) : Reply :=
  {| rChannels := chs; nextCursor := next; rErr := None; took := took |}.

(** A failed call. *)
Definition failure (err : error) (took : Z) : Reply :=
  {| rChannels := []; nextCursor := ""; rErr := Some err; took := took |}.

(** The world at the start of a run: clock [t0], nothing logged, and a
    runtime that prefers [ctx.Done()] whenever it can proceed. *)
Definition start {C S : Type} (t0 : Z) (c : C) (s : S) : World C S :=
  {| clock := t0; client := c; cacheStorage := s; log := [];
     sched := λ _, false; polls := 0 |}.

(** The errors on which a loop of [Refresh] gives up. *)
Definition fatal (err : error) : Prop :=
  match errors_As_RateLimited err with
  | None => True
  | Some rle => Retryable rle = false
  end.

(** The errors on which it goes round again. *)
Definition retryable_after (err : error) (d : Z) : Prop :=
  ∃ rle, errors_As_RateLimited err = Some rle ∧ Retryable rle = true
         ∧ rleRetryAfter rle = d.

(** ** The data of the repository's tests (resover_test.go) *)

Definition chan_test : Channel :=
  {| ID := "C012345678"; Name := "test"; IsArchived := false |}.

Definition chan_test2 : Channel :=
  {| ID := "C023456789"; Name := "test2"; IsArchived := false |}.

(** The channel [chan_test] after it was renamed on the platform. *)
Definition chan_renamed : Channel :=
  {| ID := "C012345678"; Name := "renamed"; IsArchived := false |}.

(** The options of the tests: [WithBatchSize(1)], [WithExcludeArchived()]. *)
Definition test_opts : resolverOptions :=
  New [WithBatchSize 1; WithExcludeArchived].

(** ** The shape of a run of Refresh

    [step_trace] lists what one loop iteration on endpoint [ep], entered with
    [cursor] and [sleepTime], may do to the collaborators, and how the loop
    goes on; [loop_trace] chains iterations. *)

Inductive step_trace (opts : resolverOptions) (ep : Endpoint)
    (cursor : string) (sleepTime : Z) : list Event → Flow → Prop :=
| st_done err :
    step_trace opts ep cursor sleepTime [] (Return err)
| st_fatal t reply err :
    rErr reply = Some err → fatal err →
    step_trace opts ep cursor sleepTime
      [EvCall ep t (page_params opts cursor) reply] (Return (Some err))
| st_retry t reply err d :
    rErr reply = Some err → retryable_after err d →
    step_trace opts ep cursor sleepTime
      [EvCall ep t (page_params opts cursor) reply] (Continue cursor d)
| st_store_failed t reply err :
    rErr reply = None →
    step_trace opts ep cursor sleepTime
      [EvCall ep t (page_params opts cursor) reply;
       EvSetChannels (rChannels reply) (Some err)] (Return (Some err))
| st_last_page t reply :
    rErr reply = None → nextCursor reply = "" →
    step_trace opts ep cursor sleepTime
      [EvCall ep t (page_params opts cursor) reply;
       EvSetChannels (rChannels reply) None] Break
| st_next_page t reply :
    rErr reply = None → nextCursor reply ≠ "" →
    step_trace opts ep cursor sleepTime
      [EvCall ep t (page_params opts cursor) reply;
       EvSetChannels (rChannels reply) None]
      (Continue (nextCursor reply) sleepTime).

Inductive loop_trace (opts : resolverOptions) (ep : Endpoint)
    : string → Z → list Event → LoopExit → Prop :=
| lt_break cursor sleepTime evs :
    step_trace opts ep cursor sleepTime evs Break →
    loop_trace opts ep cursor sleepTime evs Broke
| lt_return cursor sleepTime evs err :
    step_trace opts ep cursor sleepTime evs (Return err) →
    loop_trace opts ep cursor sleepTime evs (Returned err)
| lt_continue cursor sleepTime evs cursor' sleepTime' evs' exit :
    step_trace opts ep cursor sleepTime evs (Continue cursor' sleepTime') →
    loop_trace opts ep cursor' sleepTime' evs' exit →
    loop_trace opts ep cursor sleepTime (evs ++ evs') exit.

(** The events of a page loop: remote calls on [ep] and merges. *)
Definition page_event (ep : Endpoint) (ev : Event) : Prop :=
  match ev with
  | EvCall ep' _ _ _ => ep' = ep
  | EvSetChannels _ _ => True
  | _ => False
  end.

(** The events between the lock and the unlock of a Refresh. *)
Definition refresh_event (ev : Event) : Prop :=
  match ev with
  | EvCall _ _ _ _ | EvSetChannels _ _ => True
  | _ => False
  end.

(** Is [ev] a remote call on endpoint [ep]? *)
Definition is_call_on (ep : Endpoint) (ev : Event) : bool :=
  match ev, ep with
  | EvCall ForUser _ _ _, ForUser => true
  | EvCall Directory _ _ _, Directory => true
  | _, _ => false
  end.

Definition is_read (ev : Event) : bool :=
  match ev with EvGetByChannelName _ _ => true | _ => false end.

Definition is_lock (ev : Event) : bool :=
  match ev with EvLock => true | _ => false end.

(** How many cache reads, and how many Refresh runs, a history holds. *)
Definition count_reads (evs : list Event) : nat := length (filter is_read evs).
Definition count_refreshes (evs : list Event) : nat := length (filter is_lock evs).

(** ** What draining a listing endpoint means

    The remote answers with the pages [replies], in order.  Draining calls
    the endpoint with the empty cursor first and then with the cursor of the
    previous page, always with the configured limit and flag, and merges each
    page before asking for the next. *)

Definition more_page (reply : Reply) : Prop :=
  rErr reply = None ∧ nextCursor reply ≠ "".

Definition last_page (reply : Reply) : Prop :=
  rErr reply = None ∧ nextCursor reply = "".

Fixpoint drain_events (opts : resolverOptions) (ep : Endpoint)
    (cursor : string) (t : Z) (replies : list Reply) : list Event :=
  match replies with
  | [] => []
  | reply :: rest =>
      EvCall ep t {| Cursor := cursor; Limit := batchSize opts;
                     ExcludeArchived := excludeArchived opts |} reply
      :: EvSetChannels (rChannels reply) None
      :: drain_events opts ep (nextCursor reply) (t + took reply) rest
  end.

(** The clock after the calls answered by [replies]. *)
Definition drain_clock (t : Z) (replies : list Reply) : Z :=
  foldl (λ t reply, t + took reply) t replies.

(** The in-memory store after the pages [replies] were merged. *)
Fixpoint drain_store (t : Z) (s : InMemoryStorage.t) (replies : list Reply)
    : InMemoryStorage.t :=
  match replies with
  | [] => s
  | reply :: rest =>
      drain_store (t + took reply)
        (InMemoryStorage.SetChannels (t + took reply) s (rChannels reply)) rest
  end.

(** What [Refresh] returns when its second loop ends with [exit]. *)
Definition exit_error (exit : LoopExit) : option error :=
  match exit with
  | Broke => None
  | Returned err => err
  end.

(** The events of a Refresh between its lock and its unlock, and its
    result: the loop on the caller's channels, followed by the loop on the
    directory only when the first one broke out and the option is set. *)
Inductive refresh_trace (opts : resolverOptions) : list Event → option error → Prop :=
| rt_returned evs err :
    loop_trace opts ForUser "" 0 evs (Returned err) →
    refresh_trace opts evs err
| rt_joined_only evs :
    searchpublicChannels opts = false →
    loop_trace opts ForUser "" 0 evs Broke →
    refresh_trace opts evs None
| rt_directory evs evs' exit :
    searchpublicChannels opts = true →
    loop_trace opts ForUser "" 0 evs Broke →
    loop_trace opts Directory "" 0 evs' exit →
    refresh_trace opts (evs ++ evs') (exit_error exit).

(** ** A remote that limits the rate once

    The first page request takes 10ms and fails with a retryable rate-limit
    error asking for a wait of three seconds; the request that follows takes
    10ms and returns the only page. *)

Definition rate_limited : error := ErrRateLimited (3 * Time.Second) true.

Definition rate_limited_once : list Reply :=
  [failure rate_limited (10 * Time.Millisecond);
   page [chan_test] "" (10 * Time.Millisecond)].

(** The run starts at instant [t_start]; the failed request returns at
    [t_failed]; the wait asked for ends at [t_retry_due]. *)
Definition t_start : Z := 1000 * Time.Second.
Definition t_failed : Z := t_start + 10 * Time.Millisecond.
Definition t_retry_due : Z := t_failed + 3 * Time.Second.

(** A context that is cancelled one second into the run. *)
Definition ctx_cancelled_after_1s : Context :=
  {| doneAt := Some (t_start + Time.Second); doneErr := ErrCanceled |}.

(** A rate-limit error that may not be retried. *)
Definition rate_limited_for_good : error := ErrRateLimited (3 * Time.Second) false.

(** ** Lookup scenarios

    A store that was filled with [chan_test2] an hour before the run starts:
    it is not stale, and it does not know the name "test". *)

Definition warm_store : InMemoryStorage.t :=
  InMemoryStorage.SetChannels (t_start - Time.Hour) defaultCacheStorage [chan_test2].

(** The test options with [WithRefreshOnCacheMiss()]. *)
Definition miss_opts : resolverOptions :=
  New [WithBatchSize 1; WithExcludeArchived; WithRefreshOnCacheMiss].

(** The remote knows "test" and serves it in one page. *)
Definition world_remote_knows : World (list Reply) InMemoryStorage.t :=
  start t_start [page [chan_test] "" 0] warm_store.

(** The remote is down: every request fails. *)
Definition world_remote_down : World (list Reply) InMemoryStorage.t :=
  start t_start [] warm_store.

(** The two-page listing of TestResolverLookup__NoCache, and a directory
    listing of one page. *)
Definition joined_pages : list Reply := [page [chan_test] "test_cusor" 0].
Definition joined_last_page : Reply := page [chan_test2] "" 0.
Definition directory_last_page : Reply := page [chan_renamed] "" 0.

(** The reading of the specification for a miss with refresh-on-cache-miss:
    once the first read has failed with not-found, one Refresh is run, the
    read is repeated, and the outcome of that second read is what [Lookup]
    returns, whatever it is. *)
Definition miss_rereads_unconditionally {C S : Type}
    `{!SlackClient C} `{!Storage S} (opts : resolverOptions) (fuel : nat)
    (ctx : Context) (channelName : string) (w : World C S) : Prop :=
  ∀ w1 ch err w2,
    prepare opts fuel ctx w = Some (None, w1) →
    getByChannelName ctx channelName w1 = Some ((ch, Some err), w2) →
    refreshOnCacheMiss opts = true →
    errors_Is_ErrNotFound err = true →
    ∃ rerr w3, Refresh opts fuel ctx w2 = Some (rerr, w3)
               ∧ Lookup opts fuel ctx channelName w
                 = getByChannelName ctx channelName w3.

(** ** Further notions about the store

    All the records a sequence of [SetChannels] calls was given, in order. *)
Definition records_of (calls : list (Z * list Channel)) : list Channel :=
  concat (snd <$> calls).

(** A store whose entries expire before they are set: a negative expiry. *)
Definition hasty_store : InMemoryStorage.t :=
  InMemoryStorage.SetChannels t_start
    (InMemoryStorage.NewInMemoryStorage (- Time.Second)) [chan_test].

(** The loop shape that fills either index: for each record in order,
    insert a value under a key, both drawn from the record. *)
Definition fill {V : Type} (key : Channel → string) (val : Channel → V)
    (m : gmap string V) (chs : list Channel) : gmap string V :=
  foldl (λ m c, <[key c := val c]> m) m chs.

(** ** Further notions about the resolver

    The cursor a drain holds after the pages [replies]. *)
Definition drain_cursor (cursor : string) (replies : list Reply) : string :=
  foldl (λ _ reply, nextCursor reply) cursor replies.

(** A remote that answers every request, on either endpoint, with a
    retryable rate-limit error. *)
Definition always_rate_limited (C : Type) `{!SlackClient C} : Prop :=
  ∀ ctx t (c : C) params,
    (∃ err d, rErr (GetConversationsForUserContext ctx t c params).1 = Some err
              ∧ retryable_after err d)
    ∧ (∃ err d, rErr (GetConversationsContext ctx t c params).1 = Some err
                ∧ retryable_after err d).

(** Such a remote: every request takes 10ms and is told to come back in
    three seconds. *)
Inductive Throttle : Type := throttle.

#[export] Instance Throttle_SlackClient : SlackClient Throttle := {|
  GetConversationsForUserContext _ _ c _ :=
    (failure rate_limited (10 * Time.Millisecond), c);
  GetConversationsContext _ _ c _ :=
    (failure rate_limited (10 * Time.Millisecond), c)
|}.

(** A store whose [SetChannels] always fails; it holds nothing. *)
Inductive Broken : Type := broken.

#[export] Instance Broken_Storage : Storage Broken := {|
  SetChannels _ _ s _ := (Some (ErrOpaque "disk full"), s);
  GetByChannelName _ _ s _ := ((None, Some ErrNotFound), s);
  NeedRefresh _ _ s := (true, s)
|}.

(** A context that was cancelled before the run started. *)
Definition ctx_already_cancelled : Context :=
  {| doneAt := Some 0; doneErr := ErrCanceled |}.

(** The option functions a caller of [New] can pass and that act on this
    record ([WithCacheStorage] sets the store only, which is kept in the
    world). *)
Definition provided_option (optFn : resolverOptions → resolverOptions) : Prop :=
  optFn = WithSearchPublicChannels
  ∨ (∃ size, optFn = WithBatchSize size)
  ∨ optFn = WithExcludeArchived
  ∨ optFn = WithRefreshOnCacheMiss.

(** * Properties of the cache store *)

Section InMemoryStorageFacts.

Import InMemoryStorage.

Implicit Types (s : InMemoryStorage.t) (chs batch : list Channel).

Lemma foldl_set_one_snoc s chs c :
  foldl set_one s (chs ++ [c]) = set_one (foldl set_one s chs) c.
Proof. by rewrite foldl_app. Qed.

Lemma foldl_set_one_expred s chs :
  expredDuration (foldl set_one s chs) = expredDuration s.
Proof. revert s; induction chs as [|c chs IH]; intros s; [done|]. simpl. by rewrite IH. Qed.

(** Identifiers outside the batch keep their record. *)
Lemma foldl_set_one_channels_other s chs (i : string) :
  i ∉ ID <$> chs →
  channels (foldl set_one s chs) !! i = channels s !! i.
Proof.
  revert s; induction chs as [|c chs IH]; intros s Hi; [done|].
  simpl in *. apply not_elem_of_cons in Hi as [Hne Hi].
  rewrite IH by done. simpl. by rewrite lookup_insert_ne.
Qed.

(** Names outside the batch keep their identifier. *)
Lemma foldl_set_one_names_other s chs (n : string) :
  n ∉ Name <$> chs →
  namesById (foldl set_one s chs) !! n = namesById s !! n.
Proof.
  revert s; induction chs as [|c chs IH]; intros s Hn; [done|].
  simpl in *. apply not_elem_of_cons in Hn as [Hne Hn].
  rewrite IH by done. simpl. by rewrite lookup_insert_ne.
Qed.

(** Every identifier of the batch holds a record of the batch. *)
Lemma foldl_set_one_channels_in s chs c :
  c ∈ chs →
  ∃ c', c' ∈ chs ∧ ID c' = ID c ∧
        channels (foldl set_one s chs) !! ID c = Some c'.
Proof.
  induction chs as [|x chs IH] using rev_ind; [by intros ?%elem_of_nil|].
  intros Hin. rewrite foldl_set_one_snoc. simpl.
  destruct (decide (ID x = ID c)) as [Heq|Hne].
  - exists x. split; [apply elem_of_app; right; by apply list_elem_of_singleton|].
    split; [done|].
    rewrite <- Heq. apply lookup_insert_eq.
  - apply elem_of_app in Hin as [Hin|Hin];
      [|apply list_elem_of_singleton in Hin; by subst].
    destruct (IH Hin) as (c' & Hc' & Hid & Hl).
    exists c'. split; [apply elem_of_app; by left|]. split; [done|].
    by rewrite lookup_insert_ne.
Qed.

(** Every name of the batch points to the identifier of a record of the
    batch that bears this name. *)
Lemma foldl_set_one_names_in s chs c :
  c ∈ chs →
  ∃ c', c' ∈ chs ∧ Name c' = Name c ∧
        namesById (foldl set_one s chs) !! Name c = Some (ID c').
Proof.
  induction chs as [|x chs IH] using rev_ind; [by intros ?%elem_of_nil|].
  intros Hin. rewrite foldl_set_one_snoc. simpl.
  destruct (decide (Name x = Name c)) as [Heq|Hne].
  - exists x. split; [apply elem_of_app; right; by apply list_elem_of_singleton|].
    split; [done|].
    rewrite <- Heq. apply lookup_insert_eq.
  - apply elem_of_app in Hin as [Hin|Hin];
      [|apply list_elem_of_singleton in Hin; by subst].
    destruct (IH Hin) as (c' & Hc' & Hid & Hl).
    exists c'. split; [apply elem_of_app; by left|]. split; [done|].
    by rewrite lookup_insert_ne.
Qed.

Lemma set_one_index_inv s c : index_inv s → index_inv (set_one s c).
Proof.
  intros Hinv name id. unfold set_one; simpl.
  destruct (decide (Name c = name)) as [->|Hne].
  - rewrite lookup_insert_eq. intros [= <-]. rewrite lookup_insert_eq. by eexists.
  - rewrite lookup_insert_ne by done. intros Hl.
    destruct (decide (ID c = id)) as [->|Hne'].
    + rewrite lookup_insert_eq. by eexists.
    + rewrite lookup_insert_ne by done. by eapply Hinv.
Qed.

Lemma foldl_set_one_index_inv s chs :
  index_inv s → index_inv (foldl set_one s chs).
Proof.
  revert s; induction chs as [|c chs IH]; intros s Hinv; [done|].
  simpl. by apply IH, set_one_index_inv.
Qed.

Lemma SetChannels_index_inv now s chs :
  index_inv s → index_inv (SetChannels now s chs).
Proof.
  intros Hinv name id. unfold SetChannels; simpl.
  by apply foldl_set_one_index_inv.
Qed.

Lemma NewInMemoryStorage_index_inv d : index_inv (NewInMemoryStorage d).
Proof. intros name id. unfold NewInMemoryStorage; simpl. by rewrite lookup_empty. Qed.

Lemma after_batches_index_inv s calls :
  index_inv s → index_inv (after_batches s calls).
Proof.
  unfold after_batches. revert s.
  induction calls as [|[now chs] calls IH]; intros s Hinv; [done|].
  simpl. by apply IH, SetChannels_index_inv.
Qed.

End InMemoryStorageFacts.

Section InMemoryStorageClaims.

Import InMemoryStorage.

(** C5.  [NeedRefresh] on the in-memory store is true while [SetChannels]
    has never been called.  After a call of [SetChannels] at instant
    [tset], it is false when the expiry duration is zero, and otherwise true
    exactly when more than the expiry duration has elapsed since [tset].
    (The clock does not read the zero instant when [SetChannels] runs, the
    expiry is a Duration, and the elapsed time fits in one.) *)
Theorem NeedRefresh_spec (s : InMemoryStorage.t) (chs : list Channel)
    (tset now : Z) :
  tset ≠ 0 →
  Time.is_duration (expredDuration s) →
  now - tset ≤ Time.maxDuration →
  NeedRefresh now (NewInMemoryStorage (expredDuration s)) = true
  ∧ (expredDuration s = 0 → NeedRefresh now (SetChannels tset s chs) = false)
  ∧ (expredDuration s ≠ 0 →
     (NeedRefresh now (SetChannels tset s chs) = true
      ↔ now - tset > expredDuration s)).
Proof.
  intros Hnz [Hlo Hhi] Hel.
  split; [done|].
  unfold NeedRefresh, SetChannels, Time.IsZero; simpl.
  rewrite foldl_set_one_expred.
  rewrite (bool_decide_eq_false_2 (tset = 0)) by done.
  split.
  - intros ->. done.
  - intros Hd. rewrite (bool_decide_eq_false_2 (expredDuration s = 0)) by done.
    rewrite bool_decide_eq_true.
    unfold Time.Since, Time.Sub.
    rewrite (bool_decide_eq_false_2 (Time.maxDuration < now - tset)) by lia.
    case_bool_decide as Hmin; [|done].
    split; intros ?; lia.
Qed.

(** C8.  [SetChannels] only adds and overwrites: after it, every record of
    the batch is found under its identifier (as a record of the batch with
    that identifier) and its name points to the identifier of a record of
    the batch bearing that name; identifiers and names outside the batch
    keep what they had; so when the batch shares no identifier and no name
    with the store, every name that resolved before resolves to the same
    record as before. *)
Theorem SetChannels_monotone (s : InMemoryStorage.t) (now : Z)
    (batch : list Channel) :
  let s' := SetChannels now s batch in
  (∀ c, c ∈ batch →
     ∃ c', c' ∈ batch ∧ ID c' = ID c ∧ channels s' !! ID c = Some c')
  ∧ (∀ c, c ∈ batch →
     ∃ c', c' ∈ batch ∧ Name c' = Name c
           ∧ namesById s' !! Name c = Some (ID c'))
  ∧ (∀ id : string, id ∉ ID <$> batch → channels s' !! id = channels s !! id)
  ∧ (∀ name : string, name ∉ Name <$> batch →
       namesById s' !! name = namesById s !! name)
  ∧ ((∀ c, c ∈ batch →
        channels s !! ID c = None ∧ namesById s !! Name c = None) →
     ∀ name c, GetByChannelName s name = (Some c, None) →
               GetByChannelName s' name = (Some c, None)).
Proof.
  intros s'. subst s'. unfold SetChannels; simpl.
  split; [by apply foldl_set_one_channels_in|].
  split; [by apply foldl_set_one_names_in|].
  split; [by apply foldl_set_one_channels_other|].
  split; [by apply foldl_set_one_names_other|].
  intros Hdisj name c.
  unfold GetByChannelName, GetByChannelName_branch; simpl.
  destruct (namesById s !! name) as [id|] eqn:Hname; [|done].
  destruct (channels s !! id) as [c0|] eqn:Hid; [|done].
  intros [= ->].
  rewrite foldl_set_one_names_other, Hname.
  - rewrite foldl_set_one_channels_other, Hid; [done|].
    intros (x & -> & Hx)%list_elem_of_fmap.
    destruct (Hdisj x Hx) as [Hnone _]. congruence.
  - intros (x & -> & Hx)%list_elem_of_fmap.
    destruct (Hdisj x Hx) as [_ Hnone]. congruence.
Qed.

(** C9.  After any sequence of [SetChannels] calls on a new store, every
    name of the name index maps to an identifier that has a record, and
    [GetByChannelName] never leaves through its second not-found branch. *)
Theorem index_invariant (d : Z) (calls : list (Z * list Channel)) :
  let s := after_batches (NewInMemoryStorage d) calls in
  index_inv s
  ∧ ∀ channelName, GetByChannelName_branch s channelName ≠ RecordMissing.
Proof.
  intros s.
  assert (Hinv : index_inv s)
    by apply after_batches_index_inv, NewInMemoryStorage_index_inv.
  split; [done|].
  intros channelName. unfold GetByChannelName_branch.
  destruct (namesById s !! channelName) as [id|] eqn:Hname; [|done].
  destruct (Hinv _ _ Hname) as [c ->]. done.
Qed.

(** C10.  The record [GetByChannelName] returns need not bear the queried
    name: when [old] is stored under its name and a later batch holds a
    record [new] with the same identifier and another name (the batch names
    nobody [Name old], and [new] is its last record for this identifier),
    the entry of the old name stays, and the lookup by the old name returns
    [new], whose name differs from the query. *)
Theorem stale_name_entry (s : InMemoryStorage.t) (now : Z)
    (old new : Channel) (before after : list Channel) :
  namesById s !! Name old = Some (ID old) →
  ID new = ID old →
  Name old ∉ Name <$> (before ++ new :: after) →
  ID old ∉ ID <$> after →
  let s' := SetChannels now s (before ++ new :: after) in
  namesById s' !! Name old = Some (ID old)
  ∧ GetByChannelName s' (Name old) = (Some new, None)
  ∧ Name new ≠ Name old.
Proof.
  intros Hname Hid Hnames Hids s'.
  assert (Hn : namesById s' !! Name old = Some (ID old)).
  { subst s'. unfold SetChannels; simpl.
    by rewrite foldl_set_one_names_other. }
  assert (Hc : channels s' !! ID old = Some new).
  { subst s'. unfold SetChannels; simpl.
    rewrite foldl_app. simpl.
    rewrite foldl_set_one_channels_other by done.
    simpl. rewrite Hid. apply lookup_insert_eq. }
  split; [done|]. split.
  - unfold GetByChannelName, GetByChannelName_branch. by rewrite Hn, Hc.
  - intros Heq. apply Hnames. rewrite <- Heq.
    apply list_elem_of_fmap_2, elem_of_app. right. apply elem_of_cons. by left.
Qed.

End InMemoryStorageClaims.

Section InMemoryStorageWitnesses.

Import InMemoryStorage.

(** The default store, filled at instant 1, is fresh one hour later and
    stale twenty-five hours later. *)
Lemma NeedRefresh_spec_witness :
  NeedRefresh (1 + Time.Hour) (SetChannels 1 defaultCacheStorage [chan_test]) = false
  ∧ NeedRefresh (1 + 25 * Time.Hour) (SetChannels 1 defaultCacheStorage [chan_test]) = true.
Proof.
  split.
  - destruct (NeedRefresh_spec defaultCacheStorage [chan_test] 1 (1 + Time.Hour))
      as (_ & _ & H); [lia | by vm_compute | by vm_compute |].
    assert (Hd : expredDuration defaultCacheStorage ≠ 0) by (by vm_compute).
    apply not_true_is_false. intros E.
    apply (proj1 (H Hd)) in E. vm_compute in E. discriminate E.
  - destruct (NeedRefresh_spec defaultCacheStorage [chan_test] 1 (1 + 25 * Time.Hour))
      as (_ & _ & H); [lia | by vm_compute | by vm_compute |].
    apply H; by vm_compute.
Defined.

(** Merging [chan_test2] into a store that holds [chan_test] keeps the name
    "test" resolving to [chan_test]. *)
Lemma SetChannels_monotone_witness :
  GetByChannelName
    (SetChannels 2 (SetChannels 1 defaultCacheStorage [chan_test]) [chan_test2])
    "test" = (Some chan_test, None).
Proof.
  destruct (SetChannels_monotone (SetChannels 1 defaultCacheStorage [chan_test])
              2 [chan_test2]) as (_ & _ & _ & _ & H).
  apply H.
  - intros c ->%list_elem_of_singleton. by vm_compute.
  - by vm_compute.
Defined.

(** After [chan_test] was renamed, the name "test" still resolves, to the
    record that is now called "renamed". *)
Lemma stale_name_entry_witness :
  GetByChannelName
    (SetChannels 2 (SetChannels 1 defaultCacheStorage [chan_test]) [chan_renamed])
    "test" = (Some chan_renamed, None)
  ∧ Name chan_renamed ≠ "test".
Proof.
  destruct (stale_name_entry (SetChannels 1 defaultCacheStorage [chan_test]) 2
              chan_test chan_renamed [] [])
    as (_ & Hget & Hne).
  - by vm_compute.
  - reflexivity.
  - simpl. intros Hin. apply list_elem_of_singleton in Hin. discriminate Hin.
  - simpl. apply not_elem_of_nil.
  - split; [exact Hget | exact Hne].
Defined.

End InMemoryStorageWitnesses.

(** * Properties of the resolver *)

Section MonadFacts.

Context {C S : Type} `{!SlackClient C} `{!Storage S}.

Implicit Types (w : World C S).

Lemma bind_Some {A B : Type} (m : M C S A) (k : A → M C S B) w b w' :
  bind m k w = Some (b, w') ↔
  ∃ a w1, m w = Some (a, w1) ∧ k a w1 = Some (b, w').
Proof.
  unfold bind. destruct (m w) as [[a w1]|].
  - split; [by exists a, w1|]. by intros (? & ? & [= <- <-] & ?).
  - split; [done|]. by intros (? & ? & ? & ?).
Qed.


Lemma poll_spec ctx sleepTime w chosen w1 :
  poll ctx sleepTime w = Some (chosen, w1) →
  clock w1 = clock w ∧ client w1 = client w
  ∧ cacheStorage w1 = cacheStorage w ∧ log w1 = log w
  ∧ chosen = select (ctx_Done ctx (clock w)) (bool_decide (sleepTime ≤ 0))
               (sched w (polls w)).
Proof. unfold poll. by intros [= <- <-]. Qed.

Lemma call_spec ep ctx params w reply w1 :
  call ep ctx params w = Some (reply, w1) →
  clock w1 = clock w + took reply
  ∧ cacheStorage w1 = cacheStorage w
  ∧ log w1 = log w ++ [EvCall ep (clock w) params reply].
Proof.
  unfold call.
  destruct (match ep with
            | ForUser => GetConversationsForUserContext ctx (clock w) (client w) params
            | Directory => GetConversationsContext ctx (clock w) (client w) params
            end) as [r c'].
  by intros [= <- <-].
Qed.

Lemma call_total ep ctx params w :
  ∃ reply w1, call ep ctx params w = Some (reply, w1).
Proof.
  unfold call.
  destruct (match ep with
            | ForUser => GetConversationsForUserContext ctx (clock w) (client w) params
            | Directory => GetConversationsContext ctx (clock w) (client w) params
            end) as [r c']. by eexists _, _.
Qed.

Lemma setChannels_spec ctx chs w err w1 :
  setChannels ctx chs w = Some (err, w1) →
  clock w1 = clock w ∧ client w1 = client w
  ∧ log w1 = log w ++ [EvSetChannels chs err]
  ∧ SetChannels ctx (clock w) (cacheStorage w) chs = (err, cacheStorage w1).
Proof.
  unfold setChannels.
  destruct (SetChannels ctx (clock w) (cacheStorage w) chs) as [e s'].
  by intros [= <- <-].
Qed.

Lemma getByChannelName_spec ctx name w res w1 :
  getByChannelName ctx name w = Some (res, w1) →
  clock w1 = clock w ∧ client w1 = client w
  ∧ log w1 = log w ++ [EvGetByChannelName name res]
  ∧ GetByChannelName ctx (clock w) (cacheStorage w) name = (res, cacheStorage w1).
Proof.
  unfold getByChannelName.
  destruct (GetByChannelName ctx (clock w) (cacheStorage w) name) as [r s'].
  by intros [= <- <-].
Qed.

Lemma getByChannelName_total ctx name w :
  ∃ res w1, getByChannelName ctx name w = Some (res, w1).
Proof.
  unfold getByChannelName.
  destruct (GetByChannelName ctx (clock w) (cacheStorage w) name) as [r s'].
  by eexists _, _.
Qed.

Lemma needRefresh_spec ctx w need w1 :
  needRefresh ctx w = Some (need, w1) →
  clock w1 = clock w ∧ client w1 = client w
  ∧ log w1 = log w ++ [EvNeedRefresh need]
  ∧ NeedRefresh ctx (clock w) (cacheStorage w) = (need, cacheStorage w1).
Proof.
  unfold needRefresh.
  destruct (NeedRefresh ctx (clock w) (cacheStorage w)) as [b s'].
  by intros [= <- <-].
Qed.

Lemma needRefresh_total ctx w :
  ∃ need w1, needRefresh ctx w = Some (need, w1).
Proof.
  unfold needRefresh.
  destruct (NeedRefresh ctx (clock w) (cacheStorage w)) as [b s'].
  by eexists _, _.
Qed.

Lemma emit_spec ev w u w1 :
  emit ev w = Some (u, w1) →
  clock w1 = clock w ∧ client w1 = client w
  ∧ cacheStorage w1 = cacheStorage w ∧ log w1 = log w ++ [ev].
Proof. unfold emit. by intros [= <- <-]. Qed.

End MonadFacts.

Section RefreshFacts.

Context {C S : Type} `{!SlackClient C} `{!Storage S}.

Implicit Types (w : World C S) (opts : resolverOptions).

Lemma ret_Some {A : Type} (a b : A) w w' :
  @ret C S A a w = Some (b, w') ↔ a = b ∧ w = w'.
Proof. unfold ret. split; [by intros [= -> ->]|by intros [-> ->]]. Qed.


Lemma fatal_not_retryable err d : fatal err → retryable_after err d → False.
Proof.
  unfold fatal. intros Hf (rle & Has & Hr & _). rewrite Has in Hf. congruence.
Qed.

(** What happens in an iteration once the page request got its reply. *)
Lemma iteration_after_call opts ep ctx cursor sleepTime w chosen w0 reply w1 :
  poll ctx sleepTime w = Some (chosen, w0) →
  chosen ≠ CaseDone →
  call ep ctx (page_params opts cursor) w0 = Some (reply, w1) →
  iteration opts ep ctx cursor sleepTime w =
    match rErr reply with
    | Some err =>
        match errors_As_RateLimited err with
        | None => Some (Return (Some err), w1)
        | Some rle =>
            if negb (Retryable rle) then Some (Return (Some err), w1)
            else Some (Continue cursor (rleRetryAfter rle), w1)
        end
    | None =>
        match setChannels ctx (rChannels reply) w1 with
        | Some (Some err, w2) => Some (Return (Some err), w2)
        | Some (None, w2) =>
            if bool_decide (nextCursor reply = "") then Some (Break, w2)
            else Some (Continue (nextCursor reply) sleepTime, w2)
        | None => None
        end
    end.
Proof.
  intros Hpoll Hne Hcall. unfold iteration, bind at 1. rewrite Hpoll.
  assert (Hgo : ∀ k1 k2 : M C S Flow,
             match chosen with
             | CaseDone => k1 | CaseTimer | CaseDefault => k2
             end = k2) by (by destruct chosen).
  rewrite Hgo. unfold bind at 1. rewrite Hcall.
  destruct (rErr reply) as [err|].
  - destruct (errors_As_RateLimited err) as [rle|]; [|done].
    by destruct (negb (Retryable rle)).
  - unfold bind. destruct (setChannels ctx (rChannels reply) w1) as [[[e|] w2]|];
      [done| |done].
    by case_bool_decide.
Qed.

(** When the select takes the cancellation case, no call is issued. *)
Lemma iteration_cancelled opts ep ctx cursor sleepTime w w0 :
  poll ctx sleepTime w = Some (CaseDone, w0) →
  iteration opts ep ctx cursor sleepTime w
  = Some (Return (ctx_Err ctx (clock w0)), w0).
Proof. intros Hpoll. unfold iteration, bind at 1. by rewrite Hpoll. Qed.

Lemma iteration_sound opts ep ctx cursor sleepTime w flow w' :
  iteration opts ep ctx cursor sleepTime w = Some (flow, w') →
  ∃ evs, log w' = log w ++ evs
         ∧ step_trace opts ep cursor sleepTime evs flow.
Proof.
  intros Hit.
  destruct (poll ctx sleepTime w) as [[chosen w0]|] eqn:Hpoll; [|done].
  pose proof (poll_spec _ _ _ _ _ Hpoll) as (_ & _ & _ & Hlog0 & _).
  destruct (decide (chosen = CaseDone)) as [->|Hne].
  - rewrite (iteration_cancelled _ _ _ _ _ _ _ Hpoll) in Hit.
    injection Hit as <- <-. exists []. rewrite app_nil_r. split; [done|].
    constructor.
  - destruct (call_total ep ctx (page_params opts cursor) w0)
      as (reply & w1 & Hcall).
    rewrite (iteration_after_call _ _ _ _ _ _ _ _ _ _ Hpoll Hne Hcall) in Hit.
    pose proof (call_spec _ _ _ _ _ _ Hcall) as (_ & _ & Hlog1).
    rewrite Hlog0 in Hlog1.
    destruct (rErr reply) as [err|] eqn:Herr.
    + exists [EvCall ep (clock w0) (page_params opts cursor) reply].
      destruct (errors_As_RateLimited err) as [rle|] eqn:Has.
      * destruct (Retryable rle) eqn:Hr; simpl in Hit;
          injection Hit as <- <-; (split; [done|]).
        -- eapply st_retry; [done|]. by exists rle.
        -- apply st_fatal; [done|]. unfold fatal. by rewrite Has.
      * injection Hit as <- <-. split; [done|].
        apply st_fatal; [done|]. unfold fatal. by rewrite Has.
    + destruct (setChannels ctx (rChannels reply) w1) as [[serr w2]|] eqn:Hset;
        [|done].
      pose proof (setChannels_spec _ _ _ _ _ Hset) as (_ & _ & Hlog2 & _).
      rewrite Hlog1, <- app_assoc in Hlog2. simpl in Hlog2.
      destruct serr as [e|].
      * injection Hit as <- <-. eexists. split; [exact Hlog2|].
        by apply st_store_failed.
      * case_bool_decide as Hcur; injection Hit as <- <-;
          (eexists; split; [exact Hlog2|]).
        -- by apply st_last_page.
        -- by apply st_next_page.
Qed.

Lemma loop_sound opts fuel ep ctx cursor sleepTime w exit w' :
  loop opts fuel ep ctx cursor sleepTime w = Some (exit, w') →
  ∃ evs, log w' = log w ++ evs
         ∧ loop_trace opts ep cursor sleepTime evs exit.
Proof.
  revert cursor sleepTime w.
  induction fuel as [|fuel IH]; intros cursor sleepTime w Hloop; [done|].
  simpl in Hloop. apply bind_Some in Hloop as (flow & w1 & Hit & Hk).
  apply iteration_sound in Hit as (evs & Hlog & Hstep).
  destruct flow as [cursor' sleepTime'| |err].
  - apply IH in Hk as (evs' & Hlog' & Htrace).
    exists (evs ++ evs'). split.
    + by rewrite Hlog', Hlog, app_assoc.
    + by eapply lt_continue.
  - apply ret_Some in Hk as [<- <-]. exists evs. split; [done|].
    by apply lt_break.
  - apply ret_Some in Hk as [<- <-]. exists evs. split; [done|].
    by apply lt_return.
Qed.

End RefreshFacts.

Section TraceFacts.

Implicit Types (opts : resolverOptions) (evs : list Event).

Lemma app_eq_app_cons {A : Type} (l1 l2 pre post : list A) (x : A) :
  l1 ++ l2 = pre ++ x :: post →
  (∃ mid, l1 = pre ++ x :: mid ∧ post = mid ++ l2)
  ∨ (∃ pre', pre = l1 ++ pre' ∧ l2 = pre' ++ x :: post).
Proof.
  revert pre. induction l1 as [|a l1 IH]; intros pre Heq.
  - right. by exists pre.
  - destruct pre as [|b pre]; simpl in Heq.
    + injection Heq as -> <-. left. by exists l1.
    + injection Heq as -> Heq. destruct (IH _ Heq) as [(mid & -> & ->)|(pre' & -> & ->)].
      * left. by exists mid.
      * right. by exists pre'.
Qed.

Lemma step_trace_page_events opts ep cursor sleepTime evs flow :
  step_trace opts ep cursor sleepTime evs flow → Forall (page_event ep) evs.
Proof. intros Hst. destruct Hst; repeat constructor. Qed.

Lemma loop_trace_page_events opts ep cursor sleepTime evs exit :
  loop_trace opts ep cursor sleepTime evs exit → Forall (page_event ep) evs.
Proof.
  induction 1 as [? ? ? Hst|? ? ? ? Hst|? ? ? ? ? ? ? Hst _ IH];
    try (by eapply step_trace_page_events).
  apply Forall_app. split; [by eapply step_trace_page_events|done].
Qed.

Lemma page_event_refresh_event ep ev : page_event ep ev → refresh_event ev.
Proof. by destruct ev. Qed.

(** Every call of a page loop carries the configured limit and flag. *)
Lemma step_trace_params opts ep cursor sleepTime evs flow ep' t params reply :
  step_trace opts ep cursor sleepTime evs flow →
  EvCall ep' t params reply ∈ evs →
  ep' = ep ∧ params = page_params opts cursor.
Proof.
  intros Hst Hin. destruct Hst;
    repeat (apply elem_of_cons in Hin as [Hin|Hin]; [by simplify_eq|]);
    by apply elem_of_nil in Hin.
Qed.

Lemma loop_trace_params opts ep cursor sleepTime evs exit ep' t params reply :
  loop_trace opts ep cursor sleepTime evs exit →
  EvCall ep' t params reply ∈ evs →
  ep' = ep ∧ Limit params = batchSize opts
  ∧ ExcludeArchived params = excludeArchived opts.
Proof.
  induction 1 as [? ? ? Hst|? ? ? ? Hst|? ? ? ? ? ? ? Hst _ IH]; intros Hin.
  - by destruct (step_trace_params _ _ _ _ _ _ _ _ _ _ Hst Hin) as [-> ->].
  - by destruct (step_trace_params _ _ _ _ _ _ _ _ _ _ Hst Hin) as [-> ->].
  - apply elem_of_app in Hin as [Hin|Hin]; [|by apply IH].
    by destruct (step_trace_params _ _ _ _ _ _ _ _ _ _ Hst Hin) as [-> ->].
Qed.

(** Within one iteration, a call that failed for good is all that happens,
    and the iteration returns its error. *)
Lemma step_trace_fatal opts ep cursor sleepTime evs flow
    pre ep' t params reply post err :
  step_trace opts ep cursor sleepTime evs flow →
  evs = pre ++ EvCall ep' t params reply :: post →
  rErr reply = Some err → fatal err →
  pre = [] ∧ post = [] ∧ flow = Return (Some err).
Proof.
  intros Hst Heq Herr Hfatal.
  destruct Hst as [e|t0 r e Hr Hf|t0 r e d Hr Hretry|t0 r e Hr|t0 r Hr Hc|t0 r Hr Hc];
    destruct pre as [|ev1 [|ev2 [|ev3 pre]]]; simplify_eq/=; try done.
  by destruct (fatal_not_retryable _ _ Hfatal Hretry).
Qed.

(** Within a page loop, a call that failed for good is the last event, and
    the loop returns its error. *)
Lemma loop_trace_fatal opts ep cursor sleepTime evs exit
    pre ep' t params reply post err :
  loop_trace opts ep cursor sleepTime evs exit →
  evs = pre ++ EvCall ep' t params reply :: post →
  rErr reply = Some err → fatal err →
  post = [] ∧ exit = Returned (Some err).
Proof.
  intros Htrace Heq Herr Hfatal. revert pre Heq.
  induction Htrace as [? ? ? Hst|? ? ? ? Hst|? ? ? ? ? ? ? Hst _ IH];
    intros pre Heq.
  - by destruct (step_trace_fatal _ _ _ _ _ _ _ _ _ _ _ _ _ Hst Heq Herr Hfatal)
      as (_ & _ & ?).
  - destruct (step_trace_fatal _ _ _ _ _ _ _ _ _ _ _ _ _ Hst Heq Herr Hfatal)
      as (_ & -> & [= ->]). done.
  - apply app_eq_app_cons in Heq as [(mid & Heq & _)|(pre' & _ & Heq)].
    + by destruct (step_trace_fatal _ _ _ _ _ _ _ _ _ _ _ _ _ Hst Heq Herr Hfatal)
        as (_ & _ & ?).
    + by eapply IH.
Qed.

Lemma refresh_trace_events opts evs res :
  refresh_trace opts evs res → Forall refresh_event evs.
Proof.
  intros Hrt. destruct Hrt as [? ? H1|? ? H1|? ? ? ? H1 H2].
  - eapply Forall_impl; [by eapply loop_trace_page_events|].
    apply page_event_refresh_event.
  - eapply Forall_impl; [by eapply loop_trace_page_events|].
    apply page_event_refresh_event.
  - apply Forall_app. split.
    + eapply Forall_impl; [by eapply loop_trace_page_events|].
      apply page_event_refresh_event.
    + eapply Forall_impl; [by eapply loop_trace_page_events|].
      apply page_event_refresh_event.
Qed.

(** Within a Refresh, a call that failed for good is the last event and
    its error is the result. *)
Lemma refresh_trace_fatal opts evs res pre ep t params reply post err :
  refresh_trace opts evs res →
  evs = pre ++ EvCall ep t params reply :: post →
  rErr reply = Some err → fatal err →
  post = [] ∧ res = Some err.
Proof.
  intros Hrt Heq Herr Hfatal.
  destruct Hrt as [? ? H1|? ? H1|? ? ? ? H1 H2].
  - destruct (loop_trace_fatal _ _ _ _ _ _ _ _ _ _ _ _ _ H1 Heq Herr Hfatal)
      as [-> [= ->]]. done.
  - by destruct (loop_trace_fatal _ _ _ _ _ _ _ _ _ _ _ _ _ H1 Heq Herr Hfatal)
      as [_ ?].
  - apply app_eq_app_cons in Heq as [(mid & Heq & _)|(pre' & _ & Heq)].
    + by destruct (loop_trace_fatal _ _ _ _ _ _ _ _ _ _ _ _ _ H1 Heq Herr Hfatal)
        as [_ ?].
    + destruct (loop_trace_fatal _ _ _ _ _ _ _ _ _ _ _ _ _ H2 Heq Herr Hfatal)
        as [-> ->]. done.
Qed.

(** Without the search-public-channels option, no event of a Refresh is a
    call on the directory endpoint. *)
Lemma refresh_trace_no_directory opts evs res :
  searchpublicChannels opts = false →
  refresh_trace opts evs res →
  Forall (λ ev, is_call_on Directory ev = false) evs.
Proof.
  intros Hopt Hrt.
  assert (Hpe : ∀ ev, page_event ForUser ev → is_call_on Directory ev = false).
  { intros [] Hev; simpl in *; try done. by subst. }
  destruct Hrt as [? ? H1|? ? H1|? ? ? Hopt' H1 H2]; [| |congruence];
    (eapply Forall_impl; [by eapply loop_trace_page_events|exact Hpe]).
Qed.

End TraceFacts.

Section RefreshSound.

Context {C S : Type} `{!SlackClient C} `{!Storage S}.

Implicit Types (w : World C S) (opts : resolverOptions).

Lemma refresh_body_sound opts fuel ctx w res w' :
  refresh_body opts fuel ctx w = Some (res, w') →
  ∃ evs, log w' = log w ++ evs ∧ refresh_trace opts evs res.
Proof.
  unfold refresh_body. intros Hb.
  apply bind_Some in Hb as (first & w1 & Hfirst & Hk).
  apply loop_sound in Hfirst as (evs & Hlog & Htrace).
  destruct first as [|err].
  - destruct (searchpublicChannels opts) eqn:Hopt; simpl in Hk.
    + apply bind_Some in Hk as (second & w2 & Hsecond & Hk).
      apply loop_sound in Hsecond as (evs' & Hlog' & Htrace').
      exists (evs ++ evs'). split.
      * destruct second; apply ret_Some in Hk as [_ <-];
          by rewrite Hlog', Hlog, app_assoc.
      * destruct second as [|err]; apply ret_Some in Hk as [<- _].
        -- by apply (rt_directory opts evs evs' Broke).
        -- by apply (rt_directory opts evs evs' (Returned err)).
    + apply ret_Some in Hk as [<- <-]. exists evs. split; [done|].
      by apply rt_joined_only.
  - apply ret_Some in Hk as [<- <-]. exists evs. split; [done|].
    by apply rt_returned.
Qed.

(** A Refresh that returns took the lock once, ran its page loops, and
    released the lock last. *)
Lemma Refresh_sound opts fuel ctx w res w' :
  Refresh opts fuel ctx w = Some (res, w') →
  ∃ evs, log w' = log w ++ EvLock :: evs ++ [EvUnlock]
         ∧ refresh_trace opts evs res.
Proof.
  unfold Refresh. intros Hr.
  apply bind_Some in Hr as ([] & w0 & Hlock & Hr).
  apply emit_spec in Hlock as (_ & _ & _ & Hlog0).
  apply bind_Some in Hr as (err & w1 & Hbody & Hr).
  apply refresh_body_sound in Hbody as (evs & Hlog1 & Htrace).
  apply bind_Some in Hr as ([] & w2 & Hunlock & Hr).
  apply emit_spec in Hunlock as (_ & _ & _ & Hlog2).
  apply ret_Some in Hr as [<- <-].
  exists evs. split; [|done].
  rewrite Hlog2, Hlog1, Hlog0, <- !app_assoc. done.
Qed.

(** [Refresh] returns exactly when what it runs under the lock does. *)
Lemma Refresh_eq opts fuel ctx w :
  Refresh opts fuel ctx w =
  match emit EvLock w with
  | Some (_, w0) =>
      match refresh_body opts fuel ctx w0 with
      | Some (err, w1) =>
          match emit EvUnlock w1 with
          | Some (_, w2) => Some (err, w2)
          | None => None
          end
      | None => None
      end
  | None => None
  end.
Proof.
  unfold Refresh, bind, ret.
  destruct (emit EvLock w) as [[[] w0]|]; [|done].
  destruct (refresh_body opts fuel ctx w0) as [[err w1]|]; [|done].
  by destruct (emit EvUnlock w1) as [[[] w2]|].
Qed.

End RefreshSound.

Section LoopSteps.

Context {C S : Type} `{!SlackClient C} `{!Storage S}.

Implicit Types (w : World C S) (opts : resolverOptions).

(** The select never lets time pass. *)
Lemma poll_takes_no_time ctx sleepTime w chosen w0 :
  poll ctx sleepTime w = Some (chosen, w0) → clock w0 = clock w.
Proof. intros Hpoll. by apply poll_spec in Hpoll as (? & _). Qed.

(** After a retryable rate-limit error the loop goes round again with the
    same cursor, whatever the fuel left, from the world the failed call
    returned in: the store is as it was and the clock reads the instant of
    the return. *)
Lemma retryable_error_retries opts fuel ep ctx cursor sleepTime w
    chosen w0 reply w1 err d :
  poll ctx sleepTime w = Some (chosen, w0) →
  chosen ≠ CaseDone →
  call ep ctx (page_params opts cursor) w0 = Some (reply, w1) →
  rErr reply = Some err →
  retryable_after err d →
  loop opts (Datatypes.S fuel) ep ctx cursor sleepTime w
  = loop opts fuel ep ctx cursor d w1
  ∧ clock w1 = clock w + took reply
  ∧ cacheStorage w1 = cacheStorage w.
Proof.
  intros Hpoll Hne Hcall Herr (rle & Has & Hr & Hd).
  pose proof (poll_spec _ _ _ _ _ Hpoll) as (Hclk & _ & Hst0 & _).
  pose proof (call_spec _ _ _ _ _ _ Hcall) as (Hclk1 & Hst1 & _).
  split; [|split; congruence].
  simpl. unfold bind at 1.
  rewrite (iteration_after_call _ _ _ _ _ _ _ _ _ _ Hpoll Hne Hcall), Herr, Has, Hr.
  simpl. by rewrite Hd.
Qed.

(** When the context is cancelled at the select and the select takes that
    case (it must when the timer is not due, and may otherwise), the loop
    returns the error of the context and issues no call. *)
Lemma cancelled_context_stops_loop opts fuel ep ctx cursor sleepTime w :
  ctx_Done ctx (clock w) = true →
  0 < sleepTime ∨ sched w (polls w) = false →
  ∃ w0, loop opts (Datatypes.S fuel) ep ctx cursor sleepTime w
        = Some (Returned (Some (doneErr ctx)), w0)
        ∧ log w0 = log w ∧ client w0 = client w
        ∧ cacheStorage w0 = cacheStorage w.
Proof.
  intros Hdone Hpick.
  assert (Hsel : select (ctx_Done ctx (clock w)) (bool_decide (sleepTime ≤ 0))
                   (sched w (polls w)) = CaseDone).
  { rewrite Hdone. destruct Hpick as [Hpos| ->].
    - by rewrite bool_decide_eq_false_2 by lia.
    - by case_bool_decide. }
  eexists. split.
  - simpl. unfold bind at 1.
    erewrite iteration_cancelled; [|unfold poll; by rewrite Hsel].
    simpl. unfold ret, ctx_Err. by rewrite Hdone.
  - done.
Qed.

(** Without the search-public-channels option a Refresh never calls the
    directory endpoint. *)
Lemma Refresh_spares_directory opts fuel ctx w res w' :
  searchpublicChannels opts = false →
  Refresh opts fuel ctx w = Some (res, w') →
  ∃ evs, log w' = log w ++ EvLock :: evs ++ [EvUnlock]
         ∧ Forall (λ ev, is_call_on Directory ev = false) evs.
Proof.
  intros Hopt Hr. apply Refresh_sound in Hr as (evs & Hlog & Htrace).
  exists evs. split; [done|]. by eapply refresh_trace_no_directory.
Qed.

(** Every call of a Refresh carries the configured limit and flag. *)
Lemma Refresh_call_params opts fuel ctx w res w' ep t params reply :
  Refresh opts fuel ctx w = Some (res, w') →
  (∃ pre post, log w' = log w ++ pre ++ EvCall ep t params reply :: post) →
  Limit params = batchSize opts
  ∧ ExcludeArchived params = excludeArchived opts.
Proof.
  intros Hr (pre & post & Hlog).
  apply Refresh_sound in Hr as (evs & Hlog' & Htrace).
  rewrite Hlog' in Hlog. apply app_inv_head in Hlog.
  assert (Hin : EvCall ep t params reply ∈ evs).
  { assert (Hin : EvCall ep t params reply ∈ EvLock :: evs ++ [EvUnlock]).
    { rewrite Hlog. apply elem_of_app. right. apply elem_of_cons. by left. }
    apply elem_of_cons in Hin as [?|Hin]; [done|].
    apply elem_of_app in Hin as [?|Hin]; [done|].
    by apply list_elem_of_singleton in Hin. }
  destruct Htrace as [? ? H1|? ? H1|? ? ? ? H1 H2].
  - by destruct (loop_trace_params _ _ _ _ _ _ _ _ _ _ H1 Hin) as (_ & ? & ?).
  - by destruct (loop_trace_params _ _ _ _ _ _ _ _ _ _ H1 Hin) as (_ & ? & ?).
  - apply elem_of_app in Hin as [Hin|Hin].
    + by destruct (loop_trace_params _ _ _ _ _ _ _ _ _ _ H1 Hin) as (_ & ? & ?).
    + by destruct (loop_trace_params _ _ _ _ _ _ _ _ _ _ H2 Hin) as (_ & ? & ?).
Qed.

End LoopSteps.

Section RefreshClaims.

Context {C S : Type} `{!SlackClient C} `{!Storage S}.

Implicit Types (w : World C S) (opts : resolverOptions).

(** C6.  A page request that fails with a rate-limit error that is not
    retryable, or with an error that is no rate-limit signal, ends the
    loop at once: whatever the fuel, the loop returns that very error in
    the world the failed call left, where the store is as it was and
    nothing but the call was logged.  And in any Refresh that returns, such
    a failed call is followed by the unlock only and its error is the
    result of the Refresh. *)
Theorem fatal_error_aborts opts ctx :
  (∀ fuel ep cursor sleepTime w chosen w0 reply w1 err,
     poll ctx sleepTime w = Some (chosen, w0) →
     chosen ≠ CaseDone →
     call ep ctx (page_params opts cursor) w0 = Some (reply, w1) →
     rErr reply = Some err →
     fatal err →
     loop opts (Datatypes.S fuel) ep ctx cursor sleepTime w
       = Some (Returned (Some err), w1)
     ∧ cacheStorage w1 = cacheStorage w
     ∧ log w1 = log w ++ [EvCall ep (clock w) (page_params opts cursor) reply])
  ∧ (∀ fuel w res w' pre ep t params reply post err,
     Refresh opts fuel ctx w = Some (res, w') →
     log w' = log w ++ pre ++ EvCall ep t params reply :: post →
     rErr reply = Some err →
     fatal err →
     res = Some err ∧ post = [EvUnlock]).
Proof.
  split.
  - intros fuel ep cursor sleepTime w chosen w0 reply w1 err
      Hpoll Hne Hcall Herr Hfatal.
    pose proof (poll_spec _ _ _ _ _ Hpoll) as (Hclk & _ & Hst0 & Hlog0 & _).
    pose proof (call_spec _ _ _ _ _ _ Hcall) as (_ & Hst1 & Hlog1).
    split; [|split].
    + simpl. unfold bind.
      rewrite (iteration_after_call _ _ _ _ _ _ _ _ _ _ Hpoll Hne Hcall), Herr.
      unfold fatal in Hfatal.
      destruct (errors_As_RateLimited err) as [rle|]; [|done].
      by rewrite Hfatal.
    + by rewrite Hst1.
    + by rewrite Hlog1, Hlog0, Hclk.
  - intros fuel w res w' pre ep t params reply post err Hr Hlog Herr Hfatal.
    apply Refresh_sound in Hr as (evs & Hlog' & Htrace).
    rewrite Hlog' in Hlog. apply app_inv_head in Hlog.
    destruct pre as [|ev pre]; [done|]. injection Hlog as <- Hlog.
    apply app_eq_app_cons in Hlog as [(mid & Hevs & ->)|(pre' & _ & Hlast)].
    + destruct (refresh_trace_fatal _ _ _ _ _ _ _ _ _ _ Htrace Hevs Herr Hfatal)
        as [-> ->]. done.
    + by destruct pre' as [|? [|? ?]].
Qed.

End RefreshClaims.

(** A request refused for good, as the first request of a run against the
    scripted remote: the loop returns the error and the store is untouched. *)
Lemma fatal_error_aborts_witness :
  ∃ w1, loop test_opts 1 ForUser Background "" 0
          (start t_start [failure rate_limited_for_good 5] defaultCacheStorage)
        = Some (Returned (Some rate_limited_for_good), w1)
        ∧ cacheStorage w1 = defaultCacheStorage.
Proof.
  eexists.
  destruct (proj1 (fatal_error_aborts test_opts Background) 0%nat ForUser "" 0
              (start t_start [failure rate_limited_for_good 5] defaultCacheStorage)
              CaseTimer _ (failure rate_limited_for_good 5) _ rate_limited_for_good
              eq_refl ltac:(discriminate) eq_refl eq_refl eq_refl)
    as (Hloop & Hstore & _).
  split; [exact Hloop | exact Hstore].
Defined.

(** C1.  Against a remote that limits the rate once, asking for a wait of
    three seconds, Refresh does not abort and it reissues the same request
    with the same cursor; but it reissues it at the very instant the failed
    request returned, and the whole run is over long before the three seconds
    have passed: the select that was to wait has a default case and never
    blocks. *)
Theorem retry_is_not_delayed :
  ∃ w', Refresh test_opts 2 Background
          (start t_start rate_limited_once defaultCacheStorage)
        = Some (None, w')
        ∧ log w' =
            [EvLock;
             EvCall ForUser t_start (page_params test_opts "")
               (failure rate_limited (10 * Time.Millisecond));
             EvCall ForUser t_failed (page_params test_opts "")
               (page [chan_test] "" (10 * Time.Millisecond));
             EvSetChannels [chan_test] None;
             EvUnlock]
        ∧ clock w' < t_retry_due.
Proof.
  eexists. split; [vm_compute; reflexivity|]. split; [reflexivity|].
  by vm_compute.
Qed.

(** C2.  With the same remote and a context that is cancelled while the three
    seconds asked for are running, Refresh has retried before the
    cancellation and returns no error: there is no wait during which the
    cancellation could be seen. *)
Theorem cancellation_during_backoff_is_missed :
  ctx_Done ctx_cancelled_after_1s t_failed = false
  ∧ ctx_Done ctx_cancelled_after_1s t_retry_due = true
  ∧ ∃ w', Refresh test_opts 2 ctx_cancelled_after_1s
            (start t_start rate_limited_once defaultCacheStorage)
          = Some (None, w')
          ∧ log w' =
              [EvLock;
               EvCall ForUser t_start (page_params test_opts "")
                 (failure rate_limited (10 * Time.Millisecond));
               EvCall ForUser t_failed (page_params test_opts "")
                 (page [chan_test] "" (10 * Time.Millisecond));
               EvSetChannels [chan_test] None;
               EvUnlock].
Proof.
  split; [reflexivity|]. split; [reflexivity|].
  eexists. split; [vm_compute; reflexivity|]. reflexivity.
Qed.

Section Draining.

Implicit Types (w : World (list Reply) InMemoryStorage.t)
  (opts : resolverOptions).

Lemma select_not_cancelled timer_ready pick :
  select false timer_ready pick ≠ CaseDone.
Proof. by destruct timer_ready. Qed.

Lemma ctx_never_Done ctx t : doneAt ctx = None → ctx_Done ctx t = false.
Proof. unfold ctx_Done. by intros ->. Qed.

(** One iteration against the script, when the next reply is a page. *)
Lemma iteration_page opts ep ctx cursor sleepTime w reply rest :
  doneAt ctx = None →
  client w = reply :: rest →
  rErr reply = None →
  ∃ w1,
    iteration opts ep ctx cursor sleepTime w
    = Some (if bool_decide (nextCursor reply = "") then Break
            else Continue (nextCursor reply) sleepTime, w1)
    ∧ clock w1 = clock w + took reply
    ∧ client w1 = rest
    ∧ cacheStorage w1
      = InMemoryStorage.SetChannels (clock w + took reply) (cacheStorage w)
          (rChannels reply)
    ∧ log w1 = log w ++ [EvCall ep (clock w) (page_params opts cursor) reply;
                         EvSetChannels (rChannels reply) None].
Proof.
  intros Hctx Hclient Herr.
  destruct (poll ctx sleepTime w) as [[chosen w0]|] eqn:Hpoll; [|done].
  pose proof (poll_spec _ _ _ _ _ Hpoll) as (Hclk0 & Hcl0 & Hst0 & Hlog0 & Hch).
  rewrite (ctx_never_Done _ _ Hctx) in Hch.
  assert (Hne : chosen ≠ CaseDone) by (subst chosen; apply select_not_cancelled).
  assert (Hcall : call ep ctx (page_params opts cursor) w0
            = Some (reply, {| clock := clock w0 + took reply; client := rest;
                              cacheStorage := cacheStorage w0;
                              log := log w0 ++ [EvCall ep (clock w0)
                                                  (page_params opts cursor) reply];
                              sched := sched w0; polls := polls w0 |})).
  { unfold call. rewrite Hcl0, Hclient. by destruct ep. }
  rewrite (iteration_after_call _ _ _ _ _ _ _ _ _ _ Hpoll Hne Hcall), Herr.
  unfold setChannels; simpl.
  eexists. split;
    [destruct (bool_decide (nextCursor reply = "")); reflexivity|]. simpl.
  rewrite Hclk0, Hst0, Hlog0, <- app_assoc. done.
Qed.


(** The loop against a script that begins with the pages [more ++ [final]]
    of one listing: it makes exactly the calls of a drain, merges every
    page, and breaks out after the page with the empty cursor. *)
Lemma loop_drains opts ep ctx more final rest :
  doneAt ctx = None →
  Forall more_page more →
  last_page final →
  ∀ fuel cursor sleepTime w,
    client w = more ++ final :: rest →
    (length more < fuel)%nat →
    ∃ w', loop opts fuel ep ctx cursor sleepTime w = Some (Broke, w')
          ∧ clock w' = drain_clock (clock w) (more ++ [final])
          ∧ client w' = rest
          ∧ cacheStorage w'
            = drain_store (clock w) (cacheStorage w) (more ++ [final])
          ∧ log w' = log w ++ drain_events opts ep cursor (clock w)
                                (more ++ [final]).
Proof.
  intros Hctx Hmore [Hferr Hfcur].
  induction Hmore as [|reply more [Herr Hcur] _ IH];
    intros fuel cursor sleepTime w Hclient Hfuel;
    (destruct fuel as [|fuel]; [simpl in Hfuel; lia|]).
  - destruct (iteration_page opts ep ctx cursor sleepTime w final rest
                Hctx Hclient Hferr) as (w1 & Hit & Hclk & Hcl & Hst & Hlog).
    rewrite bool_decide_eq_true_2 in Hit by done.
    exists w1. simpl. unfold bind. rewrite Hit. simpl.
    by rewrite Hclk, Hst, Hlog.
  - destruct (iteration_page opts ep ctx cursor sleepTime w reply
                (more ++ final :: rest) Hctx Hclient Herr)
      as (w1 & Hit & Hclk & Hcl & Hst & Hlog).
    rewrite bool_decide_eq_false_2 in Hit by done.
    destruct (IH fuel (nextCursor reply) sleepTime w1 Hcl)
      as (w' & Hloop & Hclk' & Hcl' & Hst' & Hlog');
      [simpl in Hfuel; lia|].
    exists w'. split; [simpl; unfold bind; by rewrite Hit|].
    simpl. rewrite Hclk', Hst', Hlog', Hclk, Hst, Hlog, <- app_assoc.
    done.
Qed.

(** C3.  Against a remote that serves the caller-visible listing in the
    pages [joined ++ [joined_last]] and then the directory in the pages
    [dir ++ [dir_last]] (each last page, and no other, with an empty
    cursor), under a context that is not cancelled and with enough fuel,
    Refresh returns without error after exactly these events: the lock; for
    every page of the first listing a call on the first endpoint, with the
    empty cursor first and then the cursor of the page before, the
    configured limit and flag, followed at once by the merge of that page;
    then, only when search-public-channels is set, the same for the
    directory listing, its cursor starting empty again; the unlock.
    Without the option the directory pages are left unasked. *)
Theorem Refresh_drains opts ctx joined joined_last dir dir_last rest fuel w :
  doneAt ctx = None →
  Forall more_page joined → last_page joined_last →
  Forall more_page dir → last_page dir_last →
  client w = (joined ++ [joined_last]) ++ (dir ++ [dir_last]) ++ rest →
  (length joined < fuel)%nat → (length dir < fuel)%nat →
  let t1 := drain_clock (clock w) (joined ++ [joined_last]) in
  ∃ w', Refresh opts fuel ctx w = Some (None, w')
        ∧ log w' =
            log w ++ [EvLock]
            ++ drain_events opts ForUser "" (clock w) (joined ++ [joined_last])
            ++ (if searchpublicChannels opts
                then drain_events opts Directory "" t1 (dir ++ [dir_last])
                else [])
            ++ [EvUnlock]
        ∧ client w' =
            (if searchpublicChannels opts then rest
             else (dir ++ [dir_last]) ++ rest)
        ∧ cacheStorage w' =
            (let s1 := drain_store (clock w) (cacheStorage w)
                         (joined ++ [joined_last]) in
             if searchpublicChannels opts
             then drain_store t1 s1 (dir ++ [dir_last])
             else s1).
Proof.
  intros Hctx Hj Hjl Hd Hdl Hclient Hfj Hfd t1.
  rewrite Refresh_eq. unfold emit at 1. unfold refresh_body, bind.
  set (w0 := {| clock := clock w; client := client w;
                cacheStorage := cacheStorage w; log := log w ++ [EvLock];
                sched := sched w; polls := polls w |}).
  destruct (loop_drains opts ForUser ctx joined joined_last
              ((dir ++ [dir_last]) ++ rest) Hctx Hj Hjl fuel "" 0 w0)
    as (w1 & Hloop1 & Hclk1 & Hcl1 & Hst1 & Hlog1); [|done|].
  { simpl. by rewrite Hclient, <- !app_assoc. }
  rewrite Hloop1. simpl in Hclk1, Hst1, Hlog1.
  destruct (searchpublicChannels opts); simpl.
  - destruct (loop_drains opts Directory ctx dir dir_last rest
                Hctx Hd Hdl fuel "" 0 w1)
      as (w2 & Hloop2 & Hclk2 & Hcl2 & Hst2 & Hlog2); [|done|].
    { by rewrite Hcl1, <- !app_assoc. }
    rewrite Hloop2. unfold ret, emit. eexists. split; [done|]. simpl.
    rewrite Hlog2, Hlog1, Hcl2, Hst2, Hst1, Hclk1, <- !app_assoc. done.
  - unfold ret, emit. eexists. split; [done|]. simpl.
    rewrite Hlog1, Hcl1, Hst1, <- !app_assoc. done.
Qed.

End Draining.

(** The listing of the repository's test, with the directory search on:
    two calls on the first endpoint, the second with the cursor the first
    returned, each page merged before the next call; then the directory. *)
Lemma Refresh_drains_witness :
  ∃ w', Refresh (WithSearchPublicChannels test_opts) 2 Background
          (start t_start (joined_pages ++ [joined_last_page; directory_last_page])
             defaultCacheStorage)
        = Some (None, w')
        ∧ log w' =
            [EvLock;
             EvCall ForUser t_start {| Cursor := ""; Limit := 1; ExcludeArchived := true |}
               (page [chan_test] "test_cusor" 0);
             EvSetChannels [chan_test] None;
             EvCall ForUser t_start
               {| Cursor := "test_cusor"; Limit := 1; ExcludeArchived := true |}
               (page [chan_test2] "" 0);
             EvSetChannels [chan_test2] None;
             EvCall Directory t_start {| Cursor := ""; Limit := 1; ExcludeArchived := true |}
               (page [chan_renamed] "" 0);
             EvSetChannels [chan_renamed] None;
             EvUnlock].
Proof.
  destruct (Refresh_drains (WithSearchPublicChannels test_opts) Background
              joined_pages joined_last_page [] directory_last_page [] 2
              (start t_start (joined_pages ++ [joined_last_page; directory_last_page])
                 defaultCacheStorage))
    as (w' & Hrefresh & Hlog & _).
  - reflexivity.
  - repeat constructor; discriminate.
  - by split.
  - constructor.
  - by split.
  - reflexivity.
  - simpl; lia.
  - simpl; lia.
  - exists w'. split; [exact Hrefresh|]. rewrite Hlog. reflexivity.
Defined.

Section LookupFacts.

Context {C S : Type} `{!SlackClient C} `{!Storage S}.

Implicit Types (w : World C S) (opts : resolverOptions).

Lemma prepare_eq opts fuel ctx w need w0 :
  needRefresh ctx w = Some (need, w0) →
  prepare opts fuel ctx w
  = if need then Refresh opts fuel ctx w0 else Some (None, w0).
Proof. intros Hn. unfold prepare, bind. rewrite Hn. by destruct need. Qed.

Lemma Lookup_eq opts fuel ctx channelName w :
  Lookup opts fuel ctx channelName w =
  match prepare opts fuel ctx w with
  | Some (Some err, w1) => Some ((None, Some err), w1)
  | Some (None, w1) =>
      match getByChannelName ctx channelName w1 with
      | Some (res, w2) => Lookup_miss opts fuel ctx channelName res w2
      | None => None
      end
  | None => None
  end.
Proof.
  unfold Lookup, bind at 1.
  destruct (prepare opts fuel ctx w) as [[[err|] w1]|]; [done| |done].
  unfold bind. by destruct (getByChannelName ctx channelName w1) as [[res w2]|].
Qed.

Lemma Lookup_miss_eq opts fuel ctx channelName ch err w2 :
  Lookup_miss opts fuel ctx channelName (ch, Some err) w2 =
  if refreshOnCacheMiss opts && errors_Is_ErrNotFound err then
    match Refresh opts fuel ctx w2 with
    | Some (Some err', w3) => Some ((None, Some err'), w3)
    | Some (None, w3) => getByChannelName ctx channelName w3
    | None => None
    end
  else Some ((None, Some err), w2).
Proof.
  unfold Lookup_miss; simpl.
  destruct (refreshOnCacheMiss opts); simpl; [|done].
  destruct (errors_Is_ErrNotFound err); simpl; [|done].
  unfold bind. by destruct (Refresh opts fuel ctx w2) as [[[err'|] w3]|].
Qed.

(** What the miss handling adds to the history: nothing, or one Refresh
    and, when that Refresh succeeded, one more read. *)
Lemma Lookup_miss_sound opts fuel ctx channelName res w2 out w' :
  Lookup_miss opts fuel ctx channelName res w2 = Some (out, w') →
  log w' = log w2
  ∨ ∃ evs rres tail,
      log w' = log w2 ++ EvLock :: evs ++ EvUnlock :: tail
      ∧ refresh_trace opts evs rres
      ∧ match rres with
        | Some err' => out = (None, Some err') ∧ tail = []
        | None => tail = [EvGetByChannelName channelName out]
        end.
Proof.
  destruct res as [ch [err|]]; [|unfold Lookup_miss; simpl; intros Hr;
                                 apply ret_Some in Hr as [_ <-]; by left].
  rewrite Lookup_miss_eq.
  destruct (refreshOnCacheMiss opts && errors_Is_ErrNotFound err);
    [|intros [= <- <-]; by left].
  destruct (Refresh opts fuel ctx w2) as [[rres w3]|] eqn:Hr; [|done].
  apply Refresh_sound in Hr as (evs & Hlog & Htrace).
  destruct rres as [err'|].
  - intros [= <- <-]. right. exists evs, (Some err'), [].
    split; [by rewrite Hlog|]. by split.
  - intros Hget. apply getByChannelName_spec in Hget as (_ & _ & Hlog' & _).
    right. exists evs, None, [EvGetByChannelName channelName out].
    split; [|by split].
    rewrite Hlog', Hlog, <- app_assoc. simpl. by rewrite <- app_assoc.
Qed.

End LookupFacts.

Section LookupClaims.

Context {C S : Type} `{!SlackClient C} `{!Storage S}.

Implicit Types (w : World C S) (opts : resolverOptions).

(** C7.  [Lookup] begins by asking the store whether a refresh is needed.
    When it is, Refresh runs first: while it does not return, neither does
    [Lookup]; when it fails, [Lookup] returns its error in the world
    Refresh left, without reading; when it succeeds, the read follows in
    the world Refresh left.  When no refresh is needed, the read follows at
    once.  In the history of a [Lookup] that returns, the answer of
    [NeedRefresh] comes first, followed by the read when the answer was
    false, and by a complete Refresh (and only then the read, if the
    Refresh succeeded) when it was true. *)
Theorem Lookup_prepares opts fuel ctx channelName w need w0 :
  needRefresh ctx w = Some (need, w0) →
  (need = true →
     (Refresh opts fuel ctx w0 = None →
      Lookup opts fuel ctx channelName w = None)
     ∧ (∀ err w1, Refresh opts fuel ctx w0 = Some (Some err, w1) →
          Lookup opts fuel ctx channelName w = Some ((None, Some err), w1))
     ∧ (∀ w1, Refresh opts fuel ctx w0 = Some (None, w1) →
          ∃ res w2, getByChannelName ctx channelName w1 = Some (res, w2)
                    ∧ Lookup opts fuel ctx channelName w
                      = Lookup_miss opts fuel ctx channelName res w2))
  ∧ (need = false →
       ∃ res w2, getByChannelName ctx channelName w0 = Some (res, w2)
                 ∧ Lookup opts fuel ctx channelName w
                   = Lookup_miss opts fuel ctx channelName res w2)
  ∧ (∀ out w', Lookup opts fuel ctx channelName w = Some (out, w') →
       ∃ tail, log w' = log w ++ EvNeedRefresh need :: tail
         ∧ if need then
             ∃ evs res tail',
               tail = EvLock :: evs ++ EvUnlock :: tail'
               ∧ refresh_trace opts evs res
               ∧ match res with
                 | Some err => out = (None, Some err) ∧ tail' = []
                 | None => ∃ r tail'',
                     tail' = EvGetByChannelName channelName r :: tail''
                 end
           else ∃ r tail', tail = EvGetByChannelName channelName r :: tail').
Proof.
  intros Hneed.
  pose proof (needRefresh_spec _ _ _ _ Hneed) as (_ & _ & Hlog0 & _).
  pose proof (prepare_eq opts fuel ctx _ _ _ Hneed) as Hprep.
  split; [|split].
  - intros ->. split; [|split].
    + intros Hr. by rewrite Lookup_eq, Hprep, Hr.
    + intros err w1 Hr. by rewrite Lookup_eq, Hprep, Hr.
    + intros w1 Hr.
      destruct (getByChannelName_total ctx channelName w1) as (res & w2 & Hget).
      exists res, w2. split; [done|]. by rewrite Lookup_eq, Hprep, Hr, Hget.
  - intros ->.
    destruct (getByChannelName_total ctx channelName w0) as (res & w2 & Hget).
    exists res, w2. split; [done|]. by rewrite Lookup_eq, Hprep, Hget.
  - intros out w' HL. rewrite Lookup_eq, Hprep in HL.
    assert (Hread : ∀ w1 : World C S,
              match getByChannelName ctx channelName w1 with
              | Some (res, w2) => Lookup_miss opts fuel ctx channelName res w2
              | None => None
              end = Some (out, w') →
              ∃ r tail, log w' = log w1 ++ EvGetByChannelName channelName r :: tail).
    { intros w1 Hm.
      destruct (getByChannelName ctx channelName w1) as [[res w2]|] eqn:Hget;
        [|done].
      apply getByChannelName_spec in Hget as (_ & _ & Hlog2 & _).
      apply Lookup_miss_sound in Hm as [Hm|(evs & rres & tail & Hm & _)].
      - exists res, []. by rewrite Hm, Hlog2.
      - exists res, (EvLock :: evs ++ EvUnlock :: tail).
        by rewrite Hm, Hlog2, <- app_assoc. }
    destruct need.
    + destruct (Refresh opts fuel ctx w0) as [[rres w1]|] eqn:Hr; [|done].
      apply Refresh_sound in Hr as (evs & Hlog1 & Htrace).
      destruct rres as [err|].
      * injection HL as <- <-.
        exists (EvLock :: evs ++ [EvUnlock]). split.
        -- by rewrite Hlog1, Hlog0, <- app_assoc.
        -- by exists evs, (Some err), [].
      * apply Hread in HL as (r & tail & HL).
        exists (EvLock :: evs ++ EvUnlock :: EvGetByChannelName channelName r :: tail).
        split.
        -- rewrite HL, Hlog1, Hlog0, <- !app_assoc. simpl.
           by rewrite <- app_assoc.
        -- exists evs, None, (EvGetByChannelName channelName r :: tail).
           split; [done|]. split; [done|]. by exists r, tail.
    + apply Hread in HL as (r & tail & HL).
      exists (EvGetByChannelName channelName r :: tail). split.
      * by rewrite HL, Hlog0, <- app_assoc.
      * by exists r, tail.
Qed.

(** C4 (amended).  Once [prepare] has succeeded and the first read has
    failed with [err]: when refresh-on-cache-miss is off, or [err] is not a
    not-found error, [Lookup] returns [err] in the world the read left (no
    refresh, no call).  When the option is on and [err] is a not-found
    error, exactly one Refresh is run: while it does not return, neither
    does [Lookup]; when it fails, its error is returned and the read is not
    repeated; when it succeeds, the read is repeated once and [Lookup]
    returns whatever that read returns. *)
Theorem Lookup_miss_handling opts fuel ctx channelName w w1 ch err w2 :
  prepare opts fuel ctx w = Some (None, w1) →
  getByChannelName ctx channelName w1 = Some ((ch, Some err), w2) →
  (refreshOnCacheMiss opts = false ∨ errors_Is_ErrNotFound err = false →
     Lookup opts fuel ctx channelName w = Some ((None, Some err), w2))
  ∧ (refreshOnCacheMiss opts = true → errors_Is_ErrNotFound err = true →
       (Refresh opts fuel ctx w2 = None →
        Lookup opts fuel ctx channelName w = None)
       ∧ (∀ err' w3, Refresh opts fuel ctx w2 = Some (Some err', w3) →
            Lookup opts fuel ctx channelName w = Some ((None, Some err'), w3))
       ∧ (∀ w3, Refresh opts fuel ctx w2 = Some (None, w3) →
            Lookup opts fuel ctx channelName w
            = getByChannelName ctx channelName w3)
       ∧ (∀ out w', Lookup opts fuel ctx channelName w = Some (out, w') →
            ∃ evs tail,
              log w' = log w2 ++ EvLock :: evs ++ EvUnlock :: tail
              ∧ Forall refresh_event evs
              ∧ (tail = [] ∨ tail = [EvGetByChannelName channelName out]))).
Proof.
  intros Hprep Hget.
  assert (HL : Lookup opts fuel ctx channelName w
               = Lookup_miss opts fuel ctx channelName (ch, Some err) w2)
    by (by rewrite Lookup_eq, Hprep, Hget).
  rewrite HL, Lookup_miss_eq. split.
  - intros [-> | ->]; [done|]. by rewrite andb_false_r.
  - intros -> ->. simpl. split; [|split; [|split]].
    + by intros ->.
    + by intros err' w3 ->.
    + by intros w3 ->.
    + intros out w' Hm.
      destruct (Refresh opts fuel ctx w2) as [[rres w3]|] eqn:Hr; [|done].
      apply Refresh_sound in Hr as (evs & Hlog & Htrace).
      exists evs. destruct rres as [err'|].
      * injection Hm as <- <-. exists []. split; [done|].
        split; [by eapply refresh_trace_events|by left].
      * apply getByChannelName_spec in Hm as (_ & _ & Hlog' & _).
        exists [EvGetByChannelName channelName out]. split.
        -- rewrite Hlog', Hlog, <- app_assoc. simpl. by rewrite <- app_assoc.
        -- split; [by eapply refresh_trace_events|by right].
Qed.

End LookupClaims.

(** A lookup of "test" in a fresh store that does not know it, without
    refresh-on-cache-miss: the read follows the answer of [NeedRefresh] at
    once and its not-found error is returned. *)
Lemma Lookup_prepares_witness :
  ∃ w2, Lookup test_opts 1 Background "test" world_remote_knows
        = Some ((None, Some ErrNotFound), w2)
        ∧ log w2 = [EvNeedRefresh false;
                    EvGetByChannelName "test" (None, Some ErrNotFound)].
Proof.
  edestruct (Lookup_prepares test_opts 1 Background "test" world_remote_knows)
    as (_ & Hfresh & _).
  - vm_compute. reflexivity.
  - destruct (Hfresh eq_refl) as (res & w2 & Hget & HL).
    vm_compute in Hget. injection Hget as <- <-.
    eexists. split; [rewrite HL; vm_compute; reflexivity|]. reflexivity.
Defined.

(** With refresh-on-cache-miss, the same lookup refreshes once, reads again
    and finds the channel. *)
Lemma Lookup_miss_handling_witness :
  ∃ w', Lookup miss_opts 1 Background "test" world_remote_knows
        = Some ((Some chan_test, None), w')
        ∧ log w' = [EvNeedRefresh false;
                    EvGetByChannelName "test" (None, Some ErrNotFound);
                    EvLock;
                    EvCall ForUser t_start (page_params miss_opts "")
                      (page [chan_test] "" 0);
                    EvSetChannels [chan_test] None;
                    EvUnlock;
                    EvGetByChannelName "test" (Some chan_test, None)].
Proof.
  edestruct (Lookup_miss_handling miss_opts 1 Background "test" world_remote_knows)
    as (_ & Hmiss).
  - vm_compute. reflexivity.
  - vm_compute. reflexivity.
  - destruct (Hmiss eq_refl eq_refl) as (_ & _ & Hok & _).
    eexists. split.
    + erewrite Hok; cycle 1; vm_compute; reflexivity.
    + reflexivity.
Defined.

(** C4, as stated, fails when the Refresh run on the miss fails: with the
    remote down, [Lookup] returns the error of the remote after a single
    read, not the outcome of a repeated read. *)
Lemma Lookup_miss_refresh_fails :
  ¬ miss_rereads_unconditionally miss_opts 1 Background "test" world_remote_down.
Proof.
  intros Hclaim.
  edestruct Hclaim as (rerr & w3 & Hrefresh & Hlookup).
  - vm_compute. reflexivity.
  - vm_compute. reflexivity.
  - reflexivity.
  - reflexivity.
  - vm_compute in Hrefresh. injection Hrefresh as <- <-.
    vm_compute in Hlookup. discriminate Hlookup.
Qed.

(** What [Lookup] does there. *)
Lemma Lookup_miss_refresh_fails_run :
  ∃ w', Lookup miss_opts 1 Background "test" world_remote_down
        = Some ((None, Some (ErrOpaque "end of script")), w')
        ∧ count_refreshes (log w') = 1%nat
        ∧ count_reads (log w') = 1%nat.
Proof. eexists. split; [vm_compute; reflexivity|]. by split. Qed.

(** * Further properties of the cache store *)

Section InsertFold.

Context {V : Type} (key : Channel → string) (val : Channel → V).

Implicit Types (m : gmap string V) (chs : list Channel).

Lemma fill_other m chs (k : string) :
  k ∉ key <$> chs → fill key val m chs !! k = m !! k.
Proof.
  revert m; induction chs as [|c chs IH]; intros m Hk; [done|].
  simpl in *. apply not_elem_of_cons in Hk as [Hne Hk].
  unfold fill in *. simpl. rewrite IH by done. by rewrite lookup_insert_ne.
Qed.

Lemma fill_last m pre c post :
  key c ∉ key <$> post →
  fill key val m (pre ++ c :: post) !! key c = Some (val c).
Proof.
  intros Hk. unfold fill. rewrite foldl_app. simpl.
  fold (fill key val (<[key c:=val c]> (foldl (λ m c, <[key c := val c]> m) m pre)) post).
  rewrite fill_other by done. apply lookup_insert_eq.
Qed.

(** Among the records with a given key, one is the last. *)
Lemma last_with_key chs (k : string) :
  k ∈ key <$> chs →
  ∃ pre c post, chs = pre ++ c :: post ∧ key c = k ∧ k ∉ key <$> post.
Proof.
  intros Hin. apply list_elem_of_split_r in Hin as (l1 & l2 & Heq & Hnot).
  apply fmap_app_inv in Heq as (pre & rest & -> & Hrest & ->).
  symmetry in Hrest. apply fmap_cons_inv in Hrest as (c & post & -> & -> & ->).
  by exists pre, c, post.
Qed.

Lemma fill_lookup_Some m chs (k : string) (x : V) :
  fill key val m chs !! k = Some x →
  (m !! k = Some x ∧ k ∉ key <$> chs)
  ∨ ∃ c, c ∈ chs ∧ key c = k ∧ val c = x.
Proof.
  intros Hl. destruct (decide (k ∈ key <$> chs)) as [Hin|Hnot].
  - right. apply last_with_key in Hin as (pre & c & post & -> & <- & Hpost).
    rewrite fill_last in Hl by done. injection Hl as <-.
    exists c. split; [|done]. apply elem_of_app. right. apply elem_of_cons. by left.
  - left. split; [|done]. by rewrite fill_other in Hl.
Qed.

Lemma fill_lookup_None m chs (k : string) :
  fill key val m chs !! k = None ↔ m !! k = None ∧ k ∉ key <$> chs.
Proof.
  split.
  - intros Hl. destruct (decide (k ∈ key <$> chs)) as [Hin|Hnot].
    + apply last_with_key in Hin as (pre & c & post & -> & <- & Hpost).
      by rewrite fill_last in Hl.
    + split; [|done]. by rewrite fill_other in Hl.
  - intros [Hm Hk]. by rewrite fill_other.
Qed.

(** Filling twice with the same records is filling once. *)
Lemma fill_twice m chs : fill key val (fill key val m chs) chs = fill key val m chs.
Proof.
  apply map_eq. intros k.
  destruct (decide (k ∈ key <$> chs)) as [Hin|Hnot].
  - apply last_with_key in Hin as (pre & c & post & -> & <- & Hpost).
    by rewrite !fill_last.
  - by rewrite !fill_other.
Qed.

Lemma fill_app m chs chs' : fill key val m (chs ++ chs') = fill key val (fill key val m chs) chs'.
Proof. unfold fill. by rewrite foldl_app. Qed.

End InsertFold.

Section StoreProjections.

Import InMemoryStorage.

Implicit Types (s : InMemoryStorage.t) (chs batch : list Channel).

Lemma foldl_set_one_channels s chs :
  channels (foldl set_one s chs) = fill ID id (channels s) chs.
Proof. revert s; induction chs as [|c chs IH]; intros s; [done|]. simpl. by rewrite IH. Qed.

Lemma foldl_set_one_namesById s chs :
  namesById (foldl set_one s chs) = fill Name ID (namesById s) chs.
Proof. revert s; induction chs as [|c chs IH]; intros s; [done|]. simpl. by rewrite IH. Qed.

Lemma SetChannels_channels now s chs :
  channels (SetChannels now s chs) = fill ID id (channels s) chs.
Proof. unfold SetChannels; simpl. apply foldl_set_one_channels. Qed.

Lemma SetChannels_namesById now s chs :
  namesById (SetChannels now s chs) = fill Name ID (namesById s) chs.
Proof. unfold SetChannels; simpl. apply foldl_set_one_namesById. Qed.

Lemma SetChannels_expredDuration now s chs :
  expredDuration (SetChannels now s chs) = expredDuration s.
Proof. unfold SetChannels; simpl. apply foldl_set_one_expred. Qed.

(** Two stores with the same four fields are the same store. *)
Lemma store_eq s s' :
  channels s = channels s' → namesById s = namesById s' →
  lastSetTime s = lastSetTime s' → expredDuration s = expredDuration s' →
  s = s'.
Proof. destruct s, s'; simpl. by intros -> -> -> ->. Qed.

Lemma after_batches_channels s calls :
  channels (after_batches s calls) = fill ID id (channels s) (records_of calls).
Proof.
  unfold after_batches, records_of. revert s.
  induction calls as [|[t chs] calls IH]; intros s; [done|].
  simpl. by rewrite IH, SetChannels_channels, fill_app.
Qed.

Lemma after_batches_namesById s calls :
  namesById (after_batches s calls)
  = fill Name ID (namesById s) (records_of calls).
Proof.
  unfold after_batches, records_of. revert s.
  induction calls as [|[t chs] calls IH]; intros s; [done|].
  simpl. by rewrite IH, SetChannels_namesById, fill_app.
Qed.

End StoreProjections.

Section InMemoryStorageExtras.

Import InMemoryStorage.

Implicit Types (s : InMemoryStorage.t) (chs batch : list Channel).

(** X1.  Two [SetChannels] calls in a row amount to one call with the two
    batches appended, at the instant of the second call. *)
Theorem SetChannels_app (s : InMemoryStorage.t) (t1 t2 : Z)
    (batch1 batch2 : list Channel) :
  SetChannels t2 (SetChannels t1 s batch1) batch2
  = SetChannels t2 s (batch1 ++ batch2).
Proof.
  apply store_eq.
  - by rewrite !SetChannels_channels, fill_app.
  - by rewrite !SetChannels_namesById, fill_app.
  - done.
  - by rewrite !SetChannels_expredDuration.
Qed.

(** X2.  Merging the same batch again changes nothing but the time stamp:
    a refresh that returns the same channels leaves both indexes as they
    were. *)
Theorem SetChannels_twice (s : InMemoryStorage.t) (t1 t2 : Z)
    (batch : list Channel) :
  SetChannels t2 (SetChannels t1 s batch) batch = SetChannels t2 s batch.
Proof.
  apply store_eq.
  - by rewrite !SetChannels_channels, fill_twice.
  - by rewrite !SetChannels_namesById, fill_twice.
  - done.
  - by rewrite !SetChannels_expredDuration.
Qed.

(** X3.  Store, then look up: a record of the batch that no later record of
    the batch replaces (none after it has its identifier or its name) is what
    [GetByChannelName] returns for its name, whatever the store held. *)
Theorem SetChannels_then_GetByChannelName (s : InMemoryStorage.t) (now : Z)
    (pre post : list Channel) (c : Channel) :
  ID c ∉ ID <$> post →
  Name c ∉ Name <$> post →
  GetByChannelName (SetChannels now s (pre ++ c :: post)) (Name c)
  = (Some c, None).
Proof.
  intros Hid Hname. unfold GetByChannelName, GetByChannelName_branch.
  rewrite SetChannels_namesById, SetChannels_channels.
  rewrite (fill_last Name ID) by done.
  by rewrite (fill_last ID id) by done.
Qed.

(** X4.  On a store filled by any sequence of [SetChannels] calls since its
    creation, a lookup fails exactly for the names that no record ever
    given to [SetChannels] bore, and then with [ErrNotFound]; a lookup that
    succeeds returns one of the records given, stored under its own
    identifier. *)
Theorem GetByChannelName_reachable (d : Z) (calls : list (Z * list Channel))
    (channelName : string) :
  let s := after_batches (NewInMemoryStorage d) calls in
  (GetByChannelName s channelName = (None, Some ErrNotFound)
   ↔ channelName ∉ Name <$> records_of calls)
  ∧ (∀ c, GetByChannelName s channelName = (Some c, None) →
          c ∈ records_of calls
          ∧ namesById s !! channelName = Some (ID c)
          ∧ channels s !! ID c = Some c)
  ∧ ((GetByChannelName s channelName).2 = None
     ∨ (GetByChannelName s channelName) = (None, Some ErrNotFound)).
Proof.
  intros s.
  assert (Hinv : index_inv s)
    by apply after_batches_index_inv, NewInMemoryStorage_index_inv.
  assert (Hnames : namesById s = fill Name ID ∅ (records_of calls))
    by apply after_batches_namesById.
  assert (Hchans : channels s = fill ID id ∅ (records_of calls))
    by apply after_batches_channels.
  unfold GetByChannelName, GetByChannelName_branch.
  destruct (namesById s !! channelName) as [i|] eqn:Hn.
  - destruct (Hinv _ _ Hn) as [c Hc]. rewrite Hc.
    split; [|split].
    + split; [done|]. intros Hnot.
      rewrite Hnames in Hn. rewrite fill_other in Hn by done.
      by rewrite lookup_empty in Hn.
    + intros c' [= <-].
      assert (Hc' := Hc). rewrite Hchans in Hc'.
      apply fill_lookup_Some in Hc' as [[Hc' _]|(c0 & Hin & Hk & Hv)];
        [by rewrite lookup_empty in Hc'|].
      unfold id in Hv. subst c0. subst i. done.
    + by left.
  - split; [|split]; [|done|by right].
    split; [|done]. intros _.
    rewrite Hnames in Hn. by apply fill_lookup_None in Hn as [_ ?].
Qed.

End InMemoryStorageExtras.

Section InMemoryStorageTime.

Import InMemoryStorage.

Implicit Types (s : InMemoryStorage.t).

Lemma Sub_mono (t t' u : Z) : t ≤ t' → Time.Sub t u ≤ Time.Sub t' u.
Proof.
  intros Hle. unfold Time.Sub, Time.maxDuration, Time.minDuration.
  repeat case_bool_decide; lia.
Qed.

Lemma Sub_nonneg (t u : Z) : u ≤ t → 0 ≤ Time.Sub t u.
Proof.
  intros Hle. unfold Time.Sub, Time.maxDuration, Time.minDuration.
  repeat case_bool_decide; lia.
Qed.

(** X5.  A [SetChannels] with an empty batch leaves every lookup as it was
    and still marks the store as populated: with an expiry that is not
    negative, [NeedRefresh] is false at that instant. *)
Theorem SetChannels_nil (s : InMemoryStorage.t) (now : Z) :
  now ≠ 0 →
  0 ≤ expredDuration s →
  (∀ channelName, GetByChannelName (SetChannels now s []) channelName
                  = GetByChannelName s channelName)
  ∧ lastSetTime (SetChannels now s []) = now
  ∧ NeedRefresh now (SetChannels now s []) = false.
Proof.
  intros Hnow Hd. split; [done|]. split; [done|].
  unfold NeedRefresh, SetChannels, Time.IsZero; simpl.
  rewrite (bool_decide_eq_false_2 (now = 0)) by done.
  case_bool_decide; [done|].
  apply bool_decide_eq_false_2.
  unfold Time.Since, Time.Sub, Time.maxDuration, Time.minDuration.
  repeat case_bool_decide; lia.
Qed.

(** X6.  Staleness only grows with time: a store that needs a refresh at one
    instant needs it at every later instant, as long as nothing is set. *)
Theorem NeedRefresh_mono (s : InMemoryStorage.t) (now now' : Z) :
  now ≤ now' →
  NeedRefresh now s = true →
  NeedRefresh now' s = true.
Proof.
  intros Hle. unfold NeedRefresh.
  destruct (Time.IsZero (lastSetTime s)); [done|].
  case_bool_decide; [done|].
  rewrite !bool_decide_eq_true. unfold Time.Since.
  pose proof (Sub_mono now now' (lastSetTime s) Hle). lia.
Qed.

(** X7.  With a negative expiry the store is always stale: [NeedRefresh] is
    true at every instant from the last [SetChannels] on, so every [Lookup]
    refreshes. *)
Theorem NeedRefresh_negative_expiry (s : InMemoryStorage.t) (now : Z) :
  expredDuration s < 0 →
  lastSetTime s ≤ now →
  NeedRefresh now s = true.
Proof.
  intros Hd Hle. unfold NeedRefresh.
  destruct (Time.IsZero (lastSetTime s)); [done|].
  rewrite (bool_decide_eq_false_2 (expredDuration s = 0)) by lia.
  apply bool_decide_eq_true. unfold Time.Since.
  pose proof (Sub_nonneg now (lastSetTime s) Hle). lia.
Qed.

End InMemoryStorageTime.

Section InMemoryStorageExtrasWitnesses.

Import InMemoryStorage.

Lemma SetChannels_then_GetByChannelName_witness :
  GetByChannelName (SetChannels t_start defaultCacheStorage [chan_test; chan_test2])
    "test2" = (Some chan_test2, None).
Proof.
  apply (SetChannels_then_GetByChannelName defaultCacheStorage t_start
           [chan_test] [] chan_test2); simpl; apply not_elem_of_nil.
Defined.

Lemma GetByChannelName_reachable_witness :
  GetByChannelName
    (after_batches (NewInMemoryStorage 0) [(t_start, [chan_test])]) "test2"
  = (None, Some ErrNotFound).
Proof.
  destruct (GetByChannelName_reachable 0 [(t_start, [chan_test])] "test2")
    as ([_ Hmiss] & _).
  apply Hmiss. unfold records_of; simpl.
  intros Hin. apply list_elem_of_singleton in Hin. discriminate Hin.
Defined.

Lemma SetChannels_nil_witness :
  NeedRefresh t_start (SetChannels t_start defaultCacheStorage []) = false.
Proof.
  destruct (SetChannels_nil defaultCacheStorage t_start) as (_ & _ & H);
    [by vm_compute | by vm_compute | exact H].
Defined.

Lemma NeedRefresh_mono_witness :
  NeedRefresh (t_start + 30 * Time.Hour) warm_store = true.
Proof.
  apply (NeedRefresh_mono warm_store (t_start + 24 * Time.Hour)
           (t_start + 30 * Time.Hour)); [by vm_compute | by vm_compute].
Defined.

Lemma NeedRefresh_negative_expiry_witness :
  NeedRefresh t_start hasty_store = true.
Proof.
  apply (NeedRefresh_negative_expiry hasty_store t_start);
    [by vm_compute | by vm_compute].
Defined.

End InMemoryStorageExtrasWitnesses.

(** * Further properties of the resolver *)

Section ResolverExtras.

Context {C S : Type} `{!SlackClient C} `{!Storage S}.

Implicit Types (w : World C S) (opts : resolverOptions).

(** X8.  A cache hit: when the store needs no refresh and the read finds the
    record, [Lookup] returns what the read returned, whatever the fuel and
    the options, without taking the lock and without a remote call: the
    remote and the clock are as before and the history has grown by the
    question and the read only. *)
Theorem Lookup_hit opts fuel ctx channelName w w0 ch w2 :
  needRefresh ctx w = Some (false, w0) →
  getByChannelName ctx channelName w0 = Some ((ch, None), w2) →
  Lookup opts fuel ctx channelName w = Some ((ch, None), w2)
  ∧ client w2 = client w
  ∧ clock w2 = clock w
  ∧ log w2 = log w ++ [EvNeedRefresh false;
                       EvGetByChannelName channelName (ch, None)].
Proof.
  intros Hneed Hget.
  pose proof (needRefresh_spec _ _ _ _ Hneed) as (Hclk0 & Hcl0 & Hlog0 & _).
  pose proof (getByChannelName_spec _ _ _ _ _ Hget) as (Hclk2 & Hcl2 & Hlog2 & _).
  split; [|split; [|split]].
  - rewrite Lookup_eq, (prepare_eq opts fuel ctx _ _ _ Hneed), Hget. done.
  - congruence.
  - congruence.
  - by rewrite Hlog2, Hlog0, <- app_assoc.
Qed.

(** X9.  Refresh never returns with the lock held: in every run that
    returns, with or without error, the lock is the first new event, the
    unlock the last, and in between there are remote calls and merges only
    (no second lock, no read of the cache). *)
Theorem Refresh_lock_discipline opts fuel ctx w res w' :
  Refresh opts fuel ctx w = Some (res, w') →
  ∃ evs, log w' = log w ++ EvLock :: evs ++ [EvUnlock]
         ∧ Forall refresh_event evs
         ∧ count_refreshes (EvLock :: evs ++ [EvUnlock]) = 1%nat
         ∧ count_reads (EvLock :: evs ++ [EvUnlock]) = 0%nat.
Proof.
  intros Hr. apply Refresh_sound in Hr as (evs & Hlog & Htrace).
  apply refresh_trace_events in Htrace.
  exists evs. split; [done|]. split; [done|].
  assert (Hno : filter is_lock evs = [] ∧ filter is_read evs = []).
  { clear Hlog. induction Htrace as [|ev evs Hev _ [IH1 IH2]]; [done|].
    destruct ev; simpl in Hev; try done;
      rewrite !filter_cons; simpl; by rewrite ?IH1, ?IH2. }
  destruct Hno as [Hl Hr].
  unfold count_refreshes, count_reads.
  rewrite !filter_cons, !filter_app, Hl, Hr. done.
Qed.

Lemma step_trace_store_failed opts ep cursor sleepTime evs flow
    pre chs err post :
  step_trace opts ep cursor sleepTime evs flow →
  evs = pre ++ EvSetChannels chs (Some err) :: post →
  post = [] ∧ flow = Return (Some err).
Proof.
  intros Hst Heq.
  destruct Hst; destruct pre as [|ev1 [|ev2 [|ev3 pre]]]; simplify_eq/=; done.
Qed.

Lemma loop_trace_store_failed opts ep cursor sleepTime evs exit
    pre chs err post :
  loop_trace opts ep cursor sleepTime evs exit →
  evs = pre ++ EvSetChannels chs (Some err) :: post →
  post = [] ∧ exit = Returned (Some err).
Proof.
  intros Htrace. revert pre.
  induction Htrace as [? ? ? Hst|? ? ? ? Hst|? ? ? ? ? ? ? Hst _ IH];
    intros pre Heq.
  - by destruct (step_trace_store_failed _ _ _ _ _ _ _ _ _ _ Hst Heq) as [_ ?].
  - by destruct (step_trace_store_failed _ _ _ _ _ _ _ _ _ _ Hst Heq)
      as [-> [= ->]].
  - apply app_eq_app_cons in Heq as [(mid & Heq & _)|(pre' & _ & Heq)].
    + by destruct (step_trace_store_failed _ _ _ _ _ _ _ _ _ _ Hst Heq) as [_ ?].
    + by eapply IH.
Qed.

(** X10.  When the store refuses a page, Refresh gives up at once: whatever
    the fuel, the loop returns the error of [SetChannels] in the world the
    failed merge left, without asking for another page; and in every Refresh
    that returns, a failed merge is followed by the unlock only and its
    error is the result. *)
Theorem storage_error_aborts opts ctx :
  (∀ fuel ep cursor sleepTime w chosen w0 reply w1 err w2,
     poll ctx sleepTime w = Some (chosen, w0) →
     chosen ≠ CaseDone →
     call ep ctx (page_params opts cursor) w0 = Some (reply, w1) →
     rErr reply = None →
     setChannels ctx (rChannels reply) w1 = Some (Some err, w2) →
     loop opts (Datatypes.S fuel) ep ctx cursor sleepTime w
     = Some (Returned (Some err), w2))
  ∧ (∀ fuel w res w' pre chs err post,
     Refresh opts fuel ctx w = Some (res, w') →
     log w' = log w ++ pre ++ EvSetChannels chs (Some err) :: post →
     res = Some err ∧ post = [EvUnlock]).
Proof.
  split.
  - intros fuel ep cursor sleepTime w chosen w0 reply w1 err w2
      Hpoll Hne Hcall Herr Hset.
    simpl. unfold bind.
    by rewrite (iteration_after_call _ _ _ _ _ _ _ _ _ _ Hpoll Hne Hcall),
      Herr, Hset.
  - intros fuel w res w' pre chs err post Hr Hlog.
    apply Refresh_sound in Hr as (evs & Hlog' & Htrace).
    rewrite Hlog' in Hlog. apply app_inv_head in Hlog.
    destruct pre as [|ev pre]; [done|]. injection Hlog as <- Hlog.
    apply app_eq_app_cons in Hlog as [(mid & Hevs & ->)|(pre' & _ & Hlast)];
      [|by destruct pre' as [|? [|? ?]]].
    destruct Htrace as [? ? H1|? ? H1|? ? ? ? H1 H2].
    + by destruct (loop_trace_store_failed _ _ _ _ _ _ _ _ _ _ H1 Hevs)
        as [-> [= ->]].
    + by destruct (loop_trace_store_failed _ _ _ _ _ _ _ _ _ _ H1 Hevs) as [_ ?].
    + apply app_eq_app_cons in Hevs as [(mid' & Hevs & _)|(pre' & _ & Hevs)].
      * by destruct (loop_trace_store_failed _ _ _ _ _ _ _ _ _ _ H1 Hevs)
          as [_ ?].
      * by destruct (loop_trace_store_failed _ _ _ _ _ _ _ _ _ _ H2 Hevs)
          as [-> ->].
Qed.

(** X11.  A rate-limited request is retried at once: after a retryable
    rate-limit error asking for a wait of [d], the loop goes round with the
    same cursor, and its next request, with the same parameters, is issued
    at the very instant the failed one returned, however long [d] is. *)
Theorem retry_is_immediate opts fuel ep ctx cursor sleepTime w
    chosen w0 reply w1 err d chosen' w1' reply' w2 :
  poll ctx sleepTime w = Some (chosen, w0) →
  chosen ≠ CaseDone →
  call ep ctx (page_params opts cursor) w0 = Some (reply, w1) →
  rErr reply = Some err →
  retryable_after err d →
  poll ctx d w1 = Some (chosen', w1') →
  chosen' ≠ CaseDone →
  call ep ctx (page_params opts cursor) w1' = Some (reply', w2) →
  loop opts (Datatypes.S fuel) ep ctx cursor sleepTime w
  = loop opts fuel ep ctx cursor d w1
  ∧ log w2 = log w ++ [EvCall ep (clock w) (page_params opts cursor) reply;
                       EvCall ep (clock w + took reply)
                         (page_params opts cursor) reply'].
Proof.
  intros Hpoll Hne Hcall Herr Hretry Hpoll' Hne' Hcall'.
  destruct (retryable_error_retries opts fuel _ _ _ _ _ _ _ _ _ _ _
              Hpoll Hne Hcall Herr Hretry) as (Hloop & Hclk1 & _).
  split; [done|].
  pose proof (poll_spec _ _ _ _ _ Hpoll) as (Hclk0 & _ & _ & Hlog0 & _).
  pose proof (call_spec _ _ _ _ _ _ Hcall) as (_ & _ & Hlog1).
  pose proof (poll_spec _ _ _ _ _ Hpoll') as (Hclk1' & _ & _ & Hlog1' & _).
  pose proof (call_spec _ _ _ _ _ _ Hcall') as (_ & _ & Hlog2).
  rewrite Hlog2, Hlog1', Hlog1, Hlog0, Hclk1', Hclk1, Hclk0, <- app_assoc. done.
Qed.

(** X12.  Against a remote that keeps limiting the rate, under a context
    that is never cancelled, Refresh never returns: no amount of fuel
    suffices.  There is no bound on the number of retries. *)
Theorem Refresh_retries_forever opts ctx :
  always_rate_limited C →
  doneAt ctx = None →
  ∀ fuel w, Refresh opts fuel ctx w = None.
Proof.
  intros Hlimited Hctx.
  assert (Hloop : ∀ fuel cursor sleepTime w,
             loop opts fuel ForUser ctx cursor sleepTime w = None).
  { induction fuel as [|fuel IH]; intros cursor sleepTime w; [done|].
    destruct (poll ctx sleepTime w) as [[chosen w0]|] eqn:Hpoll; [|done].
    pose proof (poll_spec _ _ _ _ _ Hpoll) as (_ & _ & _ & _ & Hch).
    rewrite (ctx_never_Done _ _ Hctx) in Hch.
    assert (Hne : chosen ≠ CaseDone)
      by (subst chosen; apply select_not_cancelled).
    destruct (call_total ForUser ctx (page_params opts cursor) w0)
      as (reply & w1 & Hcall).
    assert (Hreply : ∃ err d, rErr reply = Some err ∧ retryable_after err d).
    { destruct (Hlimited ctx (clock w0) (client w0) (page_params opts cursor))
        as [Hu _].
      unfold call in Hcall.
      destruct (GetConversationsForUserContext ctx (clock w0) (client w0)
                  (page_params opts cursor)) as [r c'].
      by injection Hcall as <- _. }
    destruct Hreply as (err & d & Herr & Hretry).
    destruct (retryable_error_retries opts fuel _ _ _ _ _ _ _ _ _ _ _
                Hpoll Hne Hcall Herr Hretry) as (-> & _).
    apply IH. }
  intros fuel w. rewrite Refresh_eq. unfold emit at 1.
  unfold refresh_body, bind. by rewrite Hloop.
Qed.

(** X13.  When the context is already cancelled as Refresh starts and the
    select takes the cancellation case, Refresh returns the error of the
    context after taking and releasing the lock, and nothing else: no
    request reaches the remote and the store is untouched. *)
Theorem Refresh_cancelled_at_start opts fuel ctx w :
  ctx_Done ctx (clock w) = true →
  sched w (polls w) = false →
  ∃ w', Refresh opts (Datatypes.S fuel) ctx w = Some (Some (doneErr ctx), w')
        ∧ log w' = log w ++ [EvLock; EvUnlock]
        ∧ client w' = client w
        ∧ cacheStorage w' = cacheStorage w.
Proof.
  intros Hdone Hsched.
  rewrite Refresh_eq. unfold emit at 1.
  set (w0 := {| clock := clock w; client := client w;
                cacheStorage := cacheStorage w; log := log w ++ [EvLock];
                sched := sched w; polls := polls w |}).
  destruct (cancelled_context_stops_loop opts fuel ForUser ctx "" 0 w0)
    as (w1 & Hloop & Hlog & Hcl & Hst); [done|by right|].
  unfold refresh_body, bind. rewrite Hloop. unfold ret, emit.
  eexists. split; [done|]. simpl.
  rewrite Hlog, Hcl, Hst. simpl. by rewrite <- app_assoc.
Qed.

(** X14.  Whatever a Refresh runs into, every request it has made carried
    the configured batch size as limit and the configured exclude-archived
    flag; and without the search-public-channels option none of them went to
    the directory endpoint. *)
Theorem Refresh_requests opts fuel ctx w res w' :
  Refresh opts fuel ctx w = Some (res, w') →
  ∃ evs, log w' = log w ++ EvLock :: evs ++ [EvUnlock]
    ∧ (∀ ep t params reply, EvCall ep t params reply ∈ evs →
         Limit params = batchSize opts
         ∧ ExcludeArchived params = excludeArchived opts
         ∧ (searchpublicChannels opts = false → ep = ForUser)).
Proof.
  intros Hr. apply Refresh_sound in Hr as (evs & Hlog & Htrace).
  exists evs. split; [done|].
  intros ep t params reply Hin.
  destruct Htrace as [? ? H1|? ? H1|? ? ? Hopt H1 H2].
  - by destruct (loop_trace_params _ _ _ _ _ _ _ _ _ _ H1 Hin) as (-> & ? & ?).
  - by destruct (loop_trace_params _ _ _ _ _ _ _ _ _ _ H1 Hin) as (-> & ? & ?).
  - apply elem_of_app in Hin as [Hin|Hin].
    + by destruct (loop_trace_params _ _ _ _ _ _ _ _ _ _ H1 Hin) as (-> & ? & ?).
    + destruct (loop_trace_params _ _ _ _ _ _ _ _ _ _ H2 Hin) as (-> & ? & ?).
      split; [done|]. split; [done|]. congruence.
Qed.

End ResolverExtras.

Section ScriptedRuns.

Implicit Types (w : World (list Reply) InMemoryStorage.t)
  (opts : resolverOptions).

(** One iteration against the script, when the next reply is a failure for
    good. *)
Lemma iteration_fails opts ep ctx cursor sleepTime w bad rest err :
  doneAt ctx = None →
  client w = bad :: rest →
  rErr bad = Some err →
  fatal err →
  ∃ w1,
    iteration opts ep ctx cursor sleepTime w = Some (Return (Some err), w1)
    ∧ client w1 = rest
    ∧ cacheStorage w1 = cacheStorage w
    ∧ log w1 = log w ++ [EvCall ep (clock w) (page_params opts cursor) bad].
Proof.
  intros Hctx Hclient Herr Hfatal.
  destruct (poll ctx sleepTime w) as [[chosen w0]|] eqn:Hpoll; [|done].
  pose proof (poll_spec _ _ _ _ _ Hpoll) as (Hclk0 & Hcl0 & Hst0 & Hlog0 & Hch).
  rewrite (ctx_never_Done _ _ Hctx) in Hch.
  assert (Hne : chosen ≠ CaseDone) by (subst chosen; apply select_not_cancelled).
  assert (Hcall : call ep ctx (page_params opts cursor) w0
            = Some (bad, {| clock := clock w0 + took bad; client := rest;
                            cacheStorage := cacheStorage w0;
                            log := log w0 ++ [EvCall ep (clock w0)
                                                (page_params opts cursor) bad];
                            sched := sched w0; polls := polls w0 |})).
  { unfold call. rewrite Hcl0, Hclient. by destruct ep. }
  rewrite (iteration_after_call _ _ _ _ _ _ _ _ _ _ Hpoll Hne Hcall), Herr.
  eexists. split.
  - unfold fatal in Hfatal.
    destruct (errors_As_RateLimited err) as [rle|]; [|reflexivity].
    rewrite Hfatal. reflexivity.
  - simpl. by rewrite Hclk0, Hst0, Hlog0.
Qed.

Lemma drain_snoc_events opts ep cursor t replies reply :
  drain_events opts ep cursor t (replies ++ [reply])
  = drain_events opts ep cursor t replies
    ++ [EvCall ep (drain_clock t replies)
          (page_params opts (drain_cursor cursor replies)) reply;
        EvSetChannels (rChannels reply) None].
Proof.
  revert cursor t. induction replies as [|r replies IH]; intros cursor t; [done|].
  simpl. by rewrite IH.
Qed.

(** The loop against a script whose pages [more] are followed by a failure
    for good. *)
Lemma loop_drains_then_fails opts ep ctx more bad rest err :
  doneAt ctx = None →
  Forall more_page more →
  rErr bad = Some err →
  fatal err →
  ∀ fuel cursor sleepTime w,
    client w = more ++ bad :: rest →
    (length more < fuel)%nat →
    ∃ w', loop opts fuel ep ctx cursor sleepTime w
          = Some (Returned (Some err), w')
          ∧ client w' = rest
          ∧ cacheStorage w' = drain_store (clock w) (cacheStorage w) more
          ∧ log w' = log w ++ drain_events opts ep cursor (clock w) more
                     ++ [EvCall ep (drain_clock (clock w) more)
                           (page_params opts (drain_cursor cursor more)) bad].
Proof.
  intros Hctx Hmore Herr Hfatal.
  induction Hmore as [|reply more [Hrerr Hcur] _ IH];
    intros fuel cursor sleepTime w Hclient Hfuel;
    (destruct fuel as [|fuel]; [simpl in Hfuel; lia|]).
  - destruct (iteration_fails opts ep ctx cursor sleepTime w bad rest err
                Hctx Hclient Herr Hfatal) as (w1 & Hit & Hcl & Hst & Hlog).
    exists w1. simpl. unfold bind. by rewrite Hit.
  - destruct (iteration_page opts ep ctx cursor sleepTime w reply
                (more ++ bad :: rest) Hctx Hclient Hrerr)
      as (w1 & Hit & Hclk & Hcl & Hst & Hlog).
    rewrite bool_decide_eq_false_2 in Hit by done.
    destruct (IH fuel (nextCursor reply) sleepTime w1 Hcl)
      as (w' & Hloop & Hcl' & Hst' & Hlog'); [simpl in Hfuel; lia|].
    exists w'. split; [simpl; unfold bind; by rewrite Hit|].
    simpl. rewrite Hcl', Hst', Hlog', Hclk, Hst, Hlog, <- !app_assoc.
    done.
Qed.

(** X15.  A Refresh that fails half way keeps what it has merged: when the
    remote serves the pages [more] and then fails for good, Refresh returns
    that error, the store holds the pages served before the failure, and the
    history shows their calls and merges, the failed call, and the unlock;
    the directory endpoint is not tried. *)
Theorem Refresh_keeps_merged_pages opts ctx more bad rest err fuel w :
  doneAt ctx = None →
  Forall more_page more →
  rErr bad = Some err →
  fatal err →
  client w = more ++ bad :: rest →
  (length more < fuel)%nat →
  ∃ w', Refresh opts fuel ctx w = Some (Some err, w')
        ∧ cacheStorage w' = drain_store (clock w) (cacheStorage w) more
        ∧ client w' = rest
        ∧ log w' = log w ++ [EvLock]
                   ++ drain_events opts ForUser "" (clock w) more
                   ++ [EvCall ForUser (drain_clock (clock w) more)
                         (page_params opts (drain_cursor "" more)) bad;
                       EvUnlock].
Proof.
  intros Hctx Hmore Herr Hfatal Hclient Hfuel.
  rewrite Refresh_eq. unfold emit at 1. unfold refresh_body, bind.
  set (w0 := {| clock := clock w; client := client w;
                cacheStorage := cacheStorage w; log := log w ++ [EvLock];
                sched := sched w; polls := polls w |}).
  destruct (loop_drains_then_fails opts ForUser ctx more bad rest err
              Hctx Hmore Herr Hfatal fuel "" 0 w0 Hclient Hfuel)
    as (w1 & Hloop & Hcl & Hst & Hlog).
  rewrite Hloop. unfold ret, emit. eexists. split; [done|]. simpl.
  simpl in Hst, Hlog. rewrite Hst, Hcl, Hlog, <- !app_assoc. done.
Qed.

Lemma drain_store_channels t s replies :
  InMemoryStorage.channels (drain_store t s replies)
  = fill ID id (InMemoryStorage.channels s) (concat (rChannels <$> replies)).
Proof.
  revert t s. induction replies as [|r replies IH]; intros t s; [done|].
  simpl. by rewrite IH, SetChannels_channels, fill_app.
Qed.

Lemma drain_store_namesById t s replies :
  InMemoryStorage.namesById (drain_store t s replies)
  = fill Name ID (InMemoryStorage.namesById s) (concat (rChannels <$> replies)).
Proof.
  revert t s. induction replies as [|r replies IH]; intros t s; [done|].
  simpl. by rewrite IH, SetChannels_namesById, fill_app.
Qed.

(** X16.  First lookup on a new store: the store has never been set, so
    [Lookup] refreshes; when the remote serves its listing in the pages
    [more ++ [final]] and [c] is a record of these pages that no later
    record replaces, [Lookup] of the name of [c] returns [c], after one
    Refresh and one read.  (Without the search-public-channels option.) *)
Theorem Lookup_on_new_store opts ctx more final rest fuel w pre c post :
  searchpublicChannels opts = false →
  doneAt ctx = None →
  InMemoryStorage.lastSetTime (cacheStorage w) = 0 →
  Forall more_page more → last_page final →
  client w = more ++ final :: rest →
  (length more < fuel)%nat →
  concat (rChannels <$> (more ++ [final])) = pre ++ c :: post →
  ID c ∉ ID <$> post →
  Name c ∉ Name <$> post →
  ∃ w', Lookup opts fuel ctx (Name c) w = Some ((Some c, None), w')
        ∧ client w' = rest
        ∧ log w' = log w ++ [EvNeedRefresh true; EvLock]
                   ++ drain_events opts ForUser "" (clock w) (more ++ [final])
                   ++ [EvUnlock; EvGetByChannelName (Name c) (Some c, None)].
Proof.
  intros Hopt Hctx Hnew Hmore Hfinal Hclient Hfuel Hrecords Hid Hname.
  set (w0 := {| clock := clock w; client := client w;
                cacheStorage := cacheStorage w;
                log := log w ++ [EvNeedRefresh true];
                sched := sched w; polls := polls w |}).
  assert (Hneed : needRefresh ctx w = Some (true, w0)).
  { unfold needRefresh; simpl. unfold InMemoryStorage.NeedRefresh, Time.IsZero.
    by rewrite Hnew. }
  set (w1 := {| clock := clock w; client := client w;
                cacheStorage := cacheStorage w;
                log := (log w ++ [EvNeedRefresh true]) ++ [EvLock];
                sched := sched w; polls := polls w |}).
  destruct (loop_drains opts ForUser ctx more final rest Hctx Hmore Hfinal
              fuel "" 0 w1 Hclient Hfuel)
    as (w2 & Hloop & Hclk & Hcl & Hst & Hlog).
  simpl in Hclk, Hst, Hlog.
  assert (Hget : InMemoryStorage.GetByChannelName (cacheStorage w2) (Name c)
                 = (Some c, None)).
  { unfold InMemoryStorage.GetByChannelName,
      InMemoryStorage.GetByChannelName_branch.
    rewrite Hst, drain_store_namesById, drain_store_channels, Hrecords.
    rewrite (fill_last Name ID) by done.
    by rewrite (fill_last ID id) by done. }
  rewrite Lookup_eq, (prepare_eq opts fuel ctx _ _ _ Hneed), Refresh_eq.
  unfold emit at 1. subst w0. cbn [clock client cacheStorage log sched polls].
  fold w1. unfold refresh_body, bind. rewrite Hloop, Hopt.
  simpl. unfold getByChannelName; simpl. rewrite Hget.
  unfold Lookup_miss, ret; simpl.
  eexists. split; [done|]. simpl. split; [done|].
  rewrite Hlog, <- !app_assoc. done.
Qed.

End ScriptedRuns.

Section OptionsExtras.

Implicit Types (o : resolverOptions)
  (fns : list (resolverOptions → resolverOptions)).

Lemma options_fold_flag (flag : resolverOptions → bool)
    (setter : resolverOptions → resolverOptions) :
  (∀ o, flag (setter o) = true) →
  (∀ optFn, provided_option optFn →
            optFn = setter ∨ ∀ o, flag (optFn o) = flag o) →
  ∀ fns o, Forall provided_option fns →
    (flag (foldl (λ opts optFn, optFn opts) o fns) = true
     ↔ flag o = true ∨ setter ∈ fns).
Proof.
  intros Hset Hkeep fns. induction fns as [|f fns IH]; intros o Hprov.
  - simpl. split; [by left|]. intros [?|Hin]; [done|by apply elem_of_nil in Hin].
  - apply Forall_cons in Hprov as [Hf Hprov]. simpl. rewrite (IH _ Hprov).
    destruct (Hkeep f Hf) as [->|Hsame].
    + rewrite Hset. split; [intros _|by left].
      right. apply elem_of_cons. by left.
    + rewrite Hsame. split.
      * intros [?|Hin]; [by left|]. right. apply elem_of_cons. by right.
      * intros [?|Hin]; [by left|].
        apply elem_of_cons in Hin as [<-|Hin]; [|by right].
        left. by rewrite <- (Hsame o), Hset.
Qed.

Lemma options_fold_batchSize_keep fns o :
  Forall provided_option fns →
  (∀ size, WithBatchSize size ∉ fns) →
  batchSize (foldl (λ opts optFn, optFn opts) o fns) = batchSize o.
Proof.
  revert o. induction fns as [|f fns IH]; intros o Hprov Hnone; [done|].
  apply Forall_cons in Hprov as [Hf Hprov]. simpl.
  rewrite IH; [|done|].
  - destruct Hf as [->|[[size ->]|[->| ->]]]; try done.
    exfalso. apply (Hnone size), elem_of_cons. by left.
  - intros size Hin. apply (Hnone size), elem_of_cons. by right.
Qed.

(** X17.  The options of [New]: a flag is set exactly when its option was
    passed (how often and in which order does not matter, and no option
    clears a flag); the batch size is that of the last [WithBatchSize]
    passed, and 1000 when none was. *)
Theorem New_options fns :
  Forall provided_option fns →
  (searchpublicChannels (New fns) = true ↔ WithSearchPublicChannels ∈ fns)
  ∧ (excludeArchived (New fns) = true ↔ WithExcludeArchived ∈ fns)
  ∧ (refreshOnCacheMiss (New fns) = true ↔ WithRefreshOnCacheMiss ∈ fns)
  ∧ ((∀ size, WithBatchSize size ∉ fns) → batchSize (New fns) = 1000)
  ∧ (∀ pre size post,
       fns = pre ++ WithBatchSize size :: post →
       (∀ size', WithBatchSize size' ∉ post) →
       batchSize (New fns) = size).
Proof.
  intros Hprov. unfold New.
  split; [|split; [|split; [|split]]].
  - rewrite (options_fold_flag searchpublicChannels WithSearchPublicChannels);
      [|done| |done].
    + simpl. split; [by intros [?|?]|by right].
    + intros f [->|[[size ->]|[->| ->]]]; [by left|by right..].
  - rewrite (options_fold_flag excludeArchived WithExcludeArchived);
      [|done| |done].
    + simpl. split; [by intros [?|?]|by right].
    + intros f [->|[[size ->]|[->| ->]]]; [by right|by right|by left|by right].
  - rewrite (options_fold_flag refreshOnCacheMiss WithRefreshOnCacheMiss);
      [|done| |done].
    + simpl. split; [by intros [?|?]|by right].
    + intros f [->|[[size ->]|[->| ->]]]; [by right|by right|by right|by left].
  - intros Hnone. by rewrite options_fold_batchSize_keep.
  - intros pre size post -> Hnone.
    apply Forall_app in Hprov as [_ Hprov].
    apply Forall_cons in Hprov as [_ Hprov].
    rewrite foldl_app. simpl. by rewrite options_fold_batchSize_keep.
Qed.

End OptionsExtras.

(** * The further properties at work *)

Lemma Lookup_hit_witness :
  ∃ w2, Lookup test_opts 0 Background "test2" world_remote_down
        = Some ((Some chan_test2, None), w2)
        ∧ client w2 = [].
Proof.
  edestruct (Lookup_hit test_opts 0 Background "test2" world_remote_down)
    as (HL & Hcl & _).
  - vm_compute. reflexivity.
  - vm_compute. reflexivity.
  - eexists. split; [exact HL | exact Hcl].
Defined.

Lemma Refresh_lock_discipline_witness :
  ∃ (w' : World (list Reply) InMemoryStorage.t) evs,
    log w' = EvLock :: evs ++ [EvUnlock]
    ∧ count_refreshes (EvLock :: evs ++ [EvUnlock]) = 1%nat.
Proof.
  eexists.
  edestruct (Refresh_lock_discipline test_opts 2 Background
               (start t_start rate_limited_once defaultCacheStorage))
    as (evs & Hlog & _ & Hcount & _).
  - vm_compute. reflexivity.
  - exists evs. split; [exact Hlog | exact Hcount].
Defined.

Lemma storage_error_aborts_witness :
  ∃ w2, loop test_opts 1 ForUser Background "" 0
          (start t_start [page [chan_test] "" 0] broken)
        = Some (Returned (Some (ErrOpaque "disk full")), w2).
Proof.
  eexists.
  eapply (proj1 (storage_error_aborts test_opts Background) 0%nat ForUser "" 0
            (start t_start [page [chan_test] "" 0] broken));
    [reflexivity | discriminate | reflexivity | reflexivity | reflexivity].
Defined.

Lemma retry_is_immediate_witness :
  ∃ w2 : World (list Reply) InMemoryStorage.t,
    log w2 = [EvCall ForUser t_start (page_params test_opts "")
                (failure rate_limited (10 * Time.Millisecond));
              EvCall ForUser t_failed (page_params test_opts "")
                (page [chan_test] "" (10 * Time.Millisecond))].
Proof.
  eexists.
  edestruct (retry_is_immediate test_opts 0 ForUser Background "" 0
               (start t_start rate_limited_once defaultCacheStorage))
    as [_ Hlog].
  - reflexivity.
  - discriminate.
  - reflexivity.
  - reflexivity.
  - exists (mkRLE (3 * Time.Second) true). repeat split.
  - reflexivity.
  - discriminate.
  - reflexivity.
  - exact Hlog.
Defined.

Lemma Refresh_retries_forever_witness :
  Refresh test_opts 1000 Background (start t_start throttle defaultCacheStorage)
  = None.
Proof.
  apply Refresh_retries_forever; [|reflexivity].
  intros ctx t c params.
  split; exists rate_limited, (3 * Time.Second);
    (split; [reflexivity|]); exists (mkRLE (3 * Time.Second) true);
    repeat split.
Defined.

Lemma Refresh_cancelled_at_start_witness :
  ∃ w', Refresh test_opts 1 ctx_already_cancelled
          (start t_start rate_limited_once defaultCacheStorage)
        = Some (Some ErrCanceled, w')
        ∧ log w' = [EvLock; EvUnlock]
        ∧ client w' = rate_limited_once.
Proof.
  destruct (Refresh_cancelled_at_start test_opts 0 ctx_already_cancelled
              (start t_start rate_limited_once defaultCacheStorage))
    as (w' & Hr & Hlog & Hcl & _); [reflexivity | reflexivity |].
  exists w'. split; [exact Hr|]. split; [exact Hlog | exact Hcl].
Defined.

Lemma Refresh_requests_witness :
  ∃ (w' : World (list Reply) InMemoryStorage.t) evs,
    log w' = EvLock :: evs ++ [EvUnlock]
    ∧ ∀ ep t params reply, EvCall ep t params reply ∈ evs →
        Limit params = 1 ∧ ExcludeArchived params = true ∧ ep = ForUser.
Proof.
  eexists.
  edestruct (Refresh_requests test_opts 2 Background
               (start t_start rate_limited_once defaultCacheStorage))
    as (evs & Hlog & Hcalls).
  - vm_compute. reflexivity.
  - exists evs. split; [exact Hlog|].
    intros ep t params reply Hin.
    destruct (Hcalls ep t params reply Hin) as (Hl & He & Hep).
    split; [exact Hl|]. split; [exact He|]. apply Hep. reflexivity.
Defined.

Lemma Refresh_keeps_merged_pages_witness :
  ∃ w', Refresh test_opts 2 Background
          (start t_start (joined_pages ++ [failure (ErrOpaque "boom") 0])
             defaultCacheStorage)
        = Some (Some (ErrOpaque "boom"), w')
        ∧ cacheStorage w'
          = InMemoryStorage.SetChannels t_start defaultCacheStorage [chan_test].
Proof.
  destruct (Refresh_keeps_merged_pages test_opts Background joined_pages
              (failure (ErrOpaque "boom") 0) [] (ErrOpaque "boom") 2
              (start t_start (joined_pages ++ [failure (ErrOpaque "boom") 0])
                 defaultCacheStorage))
    as (w' & Hr & Hst & _).
  - reflexivity.
  - repeat constructor; discriminate.
  - reflexivity.
  - exact I.
  - reflexivity.
  - simpl; lia.
  - exists w'. split; [exact Hr|]. rewrite Hst. reflexivity.
Defined.

Lemma Lookup_on_new_store_witness :
  ∃ w', Lookup test_opts 2 Background "test2"
          (start t_start (joined_pages ++ [joined_last_page]) defaultCacheStorage)
        = Some ((Some chan_test2, None), w').
Proof.
  destruct (Lookup_on_new_store test_opts Background joined_pages
              joined_last_page [] 2
              (start t_start (joined_pages ++ [joined_last_page])
                 defaultCacheStorage)
              [chan_test] chan_test2 [])
    as (w' & HL & _).
  - reflexivity.
  - reflexivity.
  - reflexivity.
  - repeat constructor; discriminate.
  - by split.
  - reflexivity.
  - simpl; lia.
  - reflexivity.
  - simpl. apply not_elem_of_nil.
  - simpl. apply not_elem_of_nil.
  - exists w'. exact HL.
Defined.

Lemma New_options_witness :
  excludeArchived test_opts = true ∧ searchpublicChannels test_opts = false.
Proof.
  destruct (New_options [WithBatchSize 1; WithExcludeArchived])
    as (Hsearch & Harchived & _).
  - constructor; [right; left; by exists 1|].
    constructor; [right; right; by left|]. constructor.
  - split.
    + apply Harchived. apply elem_of_cons. right. apply elem_of_cons. by left.
    + reflexivity.
Defined.
